(** * sidechainnet: batch collation and structural losses

    A shallow embedding of

      - [sidechainnet/datasets/collate.py]: [collate_fn], [paired_collate_fn];
      - [sidechainnet/examples/losses.py]: [compute_batch_drmsd], [drmsd],
        [pairwise_internal_dist], [angle_mse], [angle_mae], [angle_diff],
        [_tile];

    together with the properties of these functions.

    Python exceptions are values of [result]; numpy arrays and torch tensors
    are lists (row-major); array entries of the collation code are kept
    abstract, array entries of the loss code are extended reals ([num]).

    Shapes, places, masks and exceptions are stated over these.  What
    depends on the element types is stated with them: [CollateCast] has
    the conversions of [collate_fn] to float64, int64 and float32, and
    [Arith] has [drmsd] over an arithmetic that is a parameter, with IEEE
    754 single precision ([Binary32], over the standard library's
    [SpecFloat]) as an instance. *)

From Stdlib Require Import List ZArith Lia Bool Arith.
From Stdlib Require Import Reals Lra.
From Stdlib Require SpecFloat.
Import ListNotations.

Set Implicit Arguments.

(** ** Python exceptions *)

Inductive pyexn : Type :=
| ValueError
| TypeError
| IndexError
| ZeroDivisionError.

Inductive result (T : Type) : Type :=
| Ok (v : T)
| Raise (e : pyexn).

Arguments Ok {T} v.
Arguments Raise {T} e.

Definition bind {T U : Type} (m : result T) (k : T -> result U) : result U :=
  match m with
  | Ok v => k v
  | Raise e => Raise e
  end.

Notation "x <- m ;; k" := (bind m (fun x => k))
  (at level 61, m at next level, right associativity).

(** A [for] loop that builds a list and stops at the first exception. *)
Fixpoint mapM {T U : Type} (f : T -> result U) (l : list T) : result (list U) :=
  match l with
  | [] => Ok []
  | x :: t => y <- f x ;; ys <- mapM f t ;; Ok (y :: ys)
  end.

(** Python's [l[:stop]]: [None] keeps everything, a negative [stop] counts
    from the end. *)
Definition slice_upto {X : Type} (stop : option Z) (l : list X) : list X :=
  match stop with
  | None => l
  | Some k =>
      if (0 <=? k)%Z then firstn (Z.to_nat k) l
      else firstn (Z.to_nat (Z.of_nat (length l) + k)) l
  end.

(** Python's [max] over an iterable of lengths: [ValueError] when empty. *)
Definition py_max (l : list nat) : result nat :=
  match l with
  | [] => Raise ValueError
  | x :: t => Ok (fold_left Nat.max t x)
  end.

(** ** collate.py *)

Module Collate.

Definition MAX_SEQ_LEN : Z := 500.

Inductive dtype : Type := Long | Float.

Section Collate.

(** Entries of the arrays, with the entries [0.] of [np.zeros] and
    [VOCAB.pad_id] of [np.ones(..) * VOCAB.pad_id]. *)
Variable A : Type.
Variable zero : A.
Variable pad_id : A.

(** [sidechainnet.utils.build_info.NUM_COORDS_PER_RES], a count. *)
Variable NUM_COORDS_PER_RES : nat.

(** A numpy array of rank 1 or rank 2; [ncols] is [shape[-1]] of a rank 2
    array (defined also when it has no rows). *)
Inductive ndarray : Type :=
| Arr1 (xs : list A)
| Arr2 (ncols : nat) (rows : list (list A)).

(** [len(inst)] *)
Definition len (a : ndarray) : nat :=
  match a with
  | Arr1 xs => length xs
  | Arr2 _ rows => length rows
  end.

(** [inst.shape[-1]] *)
Definition last_dim (a : ndarray) : nat :=
  match a with
  | Arr1 xs => length xs
  | Arr2 ncols _ => ncols
  end.

(** [a.shape] and [b.shape] agree after the leading axis. *)
Definition inner_shape_eqb (a b : ndarray) : bool :=
  match a, b with
  | Arr1 _, Arr1 _ => true
  | Arr2 n _, Arr2 m _ => Nat.eqb n m
  | _, _ => false
  end.

(** [np.concatenate((a, z), axis=0)]: the ranks and the trailing
    dimensions must agree. *)
Definition concatenate (a z : ndarray) : result ndarray :=
  match a, z with
  | Arr1 xs, Arr1 zs => Ok (Arr1 (xs ++ zs))
  | Arr2 n rs, Arr2 m zs =>
      if Nat.eqb n m then Ok (Arr2 n (rs ++ zs)) else Raise ValueError
  | _, _ => Raise ValueError
  end.

(** [np.array(batch)] of a list of arrays: their shapes must be the same
    (an inhomogeneous list is a [ValueError]). *)
Definition np_array (batch : list ndarray) : result (list ndarray) :=
  match batch with
  | [] => Ok []
  | a :: t =>
      if forallb (fun b => inner_shape_eqb a b && Nat.eqb (len a) (len b)) t
      then Ok batch
      else Raise ValueError
  end.

(** [a[:stop]] along the leading axis of one array. *)
Definition slice_arr (stop : option Z) (a : ndarray) : ndarray :=
  match a with
  | Arr1 xs => Arr1 (slice_upto stop xs)
  | Arr2 n rows => Arr2 n (slice_upto stop rows)
  end.

(** [max_seq_len * NUM_COORDS_PER_RES]; [None * int] is a [TypeError]. *)
Definition mul_coords (max_seq_len : option Z) : result (option Z) :=
  match max_seq_len with
  | None => Raise TypeError
  | Some m => Ok (Some (m * Z.of_nat NUM_COORDS_PER_RES)%Z)
  end.

(** A batch tensor: [torch.LongTensor(batch)] or [torch.FloatTensor(batch)];
    [t_rows] is the leading (batch) axis.  The entries are kept as they
    are here; what the conversion to the element type of the tensor does
    to them is in [CollateCast]. *)
Record tensor : Type := Tensor { t_dtype : dtype; t_rows : list ndarray }.

(** The padding block [z] of one instance. *)
Definition pad_block (sequences : bool) (max_batch_len : nat)
           (inst : ndarray) : ndarray :=
  if sequences
  then Arr1 (repeat pad_id (max_batch_len - len inst))
  else Arr2 (last_dim inst)
            (repeat (repeat zero (last_dim inst)) (max_batch_len - len inst)).

Definition collate_fn (insts : list ndarray) (coords sequences : bool)
           (max_seq_len : option Z) : result tensor :=
  max_batch_len <- py_max (map len insts) ;;
  batch <- mapM (fun inst =>
                   concatenate inst (pad_block sequences max_batch_len inst))
                insts ;;
  batch <- np_array batch ;;
  batch <- (if coords
            then stop <- mul_coords max_seq_len ;;
                 Ok (map (slice_arr stop) batch)
            else Ok (map (slice_arr max_seq_len) batch)) ;;
  Ok (Tensor (if sequences then Long else Float) batch).

(** [list(zip( *insts))] unpacked into three names: the list of
    3-tuples must not be empty. *)
Definition unzip3 (insts : list (ndarray * ndarray * ndarray))
  : result (list ndarray * list ndarray * list ndarray) :=
  match insts with
  | [] => Raise ValueError
  | _ => Ok (map (fun i => fst (fst i)) insts,
             map (fun i => snd (fst i)) insts,
             map snd insts)
  end.

Definition paired_collate_fn (insts : list (ndarray * ndarray * ndarray))
  : result (tensor * tensor * tensor) :=
  z <- unzip3 insts ;;
  let '(sequences, angles, coords) := z in
  sequences <- collate_fn sequences false true (Some MAX_SEQ_LEN) ;;
  angles <- collate_fn angles false false (Some MAX_SEQ_LEN) ;;
  coords <- collate_fn coords true false (Some MAX_SEQ_LEN) ;;
  Ok (sequences, angles, coords).

(** [t.shape[1]] of a batch tensor with at least one row. *)
Definition shape1 (t : tensor) : nat :=
  match t_rows t with
  | [] => 0
  | a :: _ => len a
  end.

(** *** Vocabulary of the statements about [collate_fn] *)

(** The rows along the leading axis of a rank 2 array. *)
Definition rows_of (a : ndarray) : list (list A) :=
  match a with
  | Arr1 _ => []
  | Arr2 _ rows => rows
  end.

(** The instances are what the flag says they are: rank 1 arrays when
    [sequences], rank 2 arrays of one width otherwise. *)
Definition rank_ok (sequences : bool) (a : ndarray) : bool :=
  match a with
  | Arr1 _ => sequences
  | Arr2 _ _ => negb sequences
  end.

Definition well_shaped (sequences : bool) (insts : list ndarray) : bool :=
  forallb (rank_ok sequences) insts &&
  match insts with
  | [] => true
  | a :: t => forallb (inner_shape_eqb a) t
  end.

(** The longest instance of the batch. *)
Definition max_len (insts : list ndarray) : nat :=
  fold_right Nat.max 0 (map len insts).

(** An instance followed by pad values up to [n] entries: [pad_id] entries
    after a rank 1 array, rows of zeros after a rank 2 array. *)
Definition pad_to (n : nat) (inst : ndarray) : ndarray :=
  match inst with
  | Arr1 xs => Arr1 (xs ++ repeat pad_id (n - length xs))
  | Arr2 w rows => Arr2 w (rows ++ repeat (repeat zero w) (n - length rows))
  end.

(** The bound of the trimming slice. *)
Definition trim_stop (coords : bool) (max_seq_len : option Z)
  : result (option Z) :=
  if coords then mul_coords max_seq_len else Ok max_seq_len.

(** The slice keeps every entry of an array of [n] entries. *)
Definition keeps_all (stop : option Z) (n : nat) : Prop :=
  match stop with
  | None => True
  | Some k => (Z.of_nat n <= k)%Z
  end.

(** The three instance lists of a paired batch are well shaped. *)
Definition well_shaped3 (insts : list (ndarray * ndarray * ndarray)) : bool :=
  well_shaped true (map (fun i => fst (fst i)) insts) &&
  well_shaped false (map (fun i => snd (fst i)) insts) &&
  well_shaped false (map snd insts).

End Collate.

End Collate.

(** Concrete batches with integer entries, used in the examples. *)

Module CollateData.

Import Collate.

Local Open Scope Z_scope.

Definition two_seqs : list (ndarray Z) := [Arr1 [1; 2; 3]; Arr1 [4]].

Definition one_residue : ndarray Z := Arr2 3 (repeat [1; 2; 3] 14).

Definition two_residues : ndarray Z := Arr2 3 (repeat [4; 5; 6] 28).

Definition paired_batch : list (ndarray Z * ndarray Z * ndarray Z) :=
  [ (Arr1 [7], Arr2 2 [[1; 1]], one_residue);
    (Arr1 [8; 9], Arr2 2 [[2; 2]; [3; 3]], two_residues) ].

End CollateData.

(** ** losses.py *)

Module Losses.

Local Open Scope R_scope.

(** *** Tensor entries

    A finite float is taken as the real number it stands for; NaN and the
    two infinities are kept, with the IEEE 754 rules for them.  Rounding,
    overflow and the sign of zero are not part of the model. *)

Inductive num : Type :=
| NaN
| PInf
| NInf
| Fin (r : R).

Definition isnan (x : num) : bool :=
  match x with
  | NaN => true
  | _ => false
  end.

Definition nneg (x : num) : num :=
  match x with
  | NaN => NaN
  | PInf => NInf
  | NInf => PInf
  | Fin r => Fin (- r)
  end.

Definition nadd (x y : num) : num :=
  match x, y with
  | NaN, _ => NaN
  | _, NaN => NaN
  | PInf, NInf => NaN
  | NInf, PInf => NaN
  | PInf, _ => PInf
  | _, PInf => PInf
  | NInf, _ => NInf
  | _, NInf => NInf
  | Fin a, Fin b => Fin (a + b)
  end.

Definition nsub (x y : num) : num := nadd x (nneg y).

Definition signed_inf (positive : bool) : num :=
  if positive then PInf else NInf.

(** An infinity of the given sign times (or a zero divided into) a real. *)
Definition inf_scaled (positive : bool) (r : R) : num :=
  if Rlt_dec 0 r then signed_inf positive
  else if Rlt_dec r 0 then signed_inf (negb positive)
  else NaN.

Definition nmul (x y : num) : num :=
  match x, y with
  | NaN, _ => NaN
  | _, NaN => NaN
  | PInf, PInf => PInf
  | NInf, NInf => PInf
  | PInf, NInf => NInf
  | NInf, PInf => NInf
  | PInf, Fin r => inf_scaled true r
  | Fin r, PInf => inf_scaled true r
  | NInf, Fin r => inf_scaled false r
  | Fin r, NInf => inf_scaled false r
  | Fin a, Fin b => Fin (a * b)
  end.

Definition ndiv (x y : num) : num :=
  match x, y with
  | NaN, _ => NaN
  | _, NaN => NaN
  | Fin _, PInf => Fin 0
  | Fin _, NInf => Fin 0
  | _, PInf => NaN
  | _, NInf => NaN
  | PInf, Fin b => if Rlt_dec b 0 then NInf else PInf
  | NInf, Fin b => if Rlt_dec b 0 then PInf else NInf
  | Fin a, Fin b => if Req_dec_T b 0 then inf_scaled true a else Fin (a / b)
  end.

Definition nsqrt (x : num) : num :=
  match x with
  | NaN => NaN
  | PInf => PInf
  | NInf => NaN
  | Fin r => if Rlt_dec r 0 then NaN else Fin (sqrt r)
  end.

Definition nabs (x : num) : num :=
  match x with
  | NaN => NaN
  | PInf => PInf
  | NInf => PInf
  | Fin r => Fin (Rabs r)
  end.

(** [x.clamp_min(c)]; NaN is propagated. *)
Definition clamp_min (x : num) (c : R) : num :=
  match x with
  | NaN => NaN
  | PInf => PInf
  | NInf => Fin c
  | Fin r => Fin (Rmax r c)
  end.

(** [x > y]; false when either side is NaN. *)
Definition ngt (x y : num) : bool :=
  match x, y with
  | NaN, _ => false
  | _, NaN => false
  | PInf, PInf => false
  | PInf, _ => true
  | _, PInf => false
  | NInf, _ => false
  | Fin _, NInf => true
  | Fin a, Fin b => if Rlt_dec b a then true else false
  end.

(** [x < y] *)
Definition nlt (x y : num) : bool := ngt y x.

(** [x.sum()] of a 1-d tensor. *)
Definition nsum (l : list num) : num := fold_left nadd l (Fin 0).

(** [x.mean()]: the sum over the number of entries (NaN when empty). *)
Definition nmean (l : list num) : num :=
  ndiv (nsum l) (Fin (INR (length l))).

(** [torch.nansum]: NaN entries count as zero. *)
Definition nansum (l : list num) : num :=
  nsum (map (fun x => if isnan x then Fin 0 else x) l).

(** [torch.nanmean]: [nansum] over the number of entries that are not NaN. *)
Definition nanmean (l : list num) : num :=
  ndiv (nansum l)
       (Fin (INR (length (filter (fun x => negb (isnan x)) l)))).

(** [torch.nn.functional.mse_loss(input, target)] of two 1-d tensors of one
    length (default reduction: mean). *)
Definition mse_loss (input target : list num) : num :=
  nmean (map (fun p => nmul (nsub (fst p) (snd p)) (nsub (fst p) (snd p)))
             (combine input target)).

(** [x[mask]] with a boolean mask along the leading axis: the mask must be
    as long as that axis. *)
Fixpoint select {X : Type} (x : list X) (mask : list bool) : list X :=
  match x, mask with
  | v :: x', b :: mask' => if b then v :: select x' mask' else select x' mask'
  | _, _ => []
  end.

Definition bool_index {X : Type} (x : list X) (mask : list bool)
  : result (list X) :=
  if Nat.eqb (length x) (length mask) then Ok (select x mask)
  else Raise IndexError.

(** *** Coordinates: 2-d tensors, as lists of rows *)

Definition matrix : Type := list (list num).

(** [m.shape[0]] and [m.shape[1]] *)
Definition nrows (m : matrix) : nat := length m.

Definition ncols (m : matrix) : nat :=
  match m with
  | [] => 0%nat
  | r :: _ => length r
  end.

(** One entry of [x1 @ x2.transpose(-2, -1)]. *)
Definition dot (u v : list num) : num :=
  nsum (map (fun p => nmul (fst p) (snd p)) (combine u v)).

(** [x1.pow(2).sum(dim=-1, keepdim=True)] *)
Definition x1_norm (x : matrix) : list num :=
  map (fun row => nsum (map (fun v => nmul v v) row)) x.

Definition clamp_eps : R := 1e-30.

(** [addmm(x1_norm^T, x1, x2^T, alpha=-2).add_(x1_norm)], then
    [clamp_min_(1e-30).sqrt_()]. *)
Definition pairwise_internal_dist (x : matrix) : matrix :=
  let xn := combine x (x1_norm x) in
  map (fun i =>
         map (fun j =>
                nsqrt (clamp_min
                         (nadd (nadd (snd j)
                                     (nmul (Fin (-2)) (dot (fst i) (fst j))))
                               (snd i))
                         clamp_eps))
             xn)
      xn.

(** [torch.triu_indices(row, col, offset)] for [offset >= 0]: the pairs
    [(i, j)] with [j - i >= offset], row by row, as the two index rows
    [i[0]] and [i[1]]. *)
Definition triu_pairs (row col offset : nat) : list (nat * nat) :=
  flat_map (fun i => map (fun j => (i, j))
                         (seq (i + offset) (col - (i + offset))))
           (seq 0 row).

Definition triu_indices (row col offset : nat) : list nat * list nat :=
  (map fst (triu_pairs row col offset), map snd (triu_pairs row col offset)).

(** [m[rows, cols]]: one entry per index pair. *)
Definition index2 (m : matrix) (rows cols : list nat) : result (list num) :=
  mapM (fun ij =>
          match nth_error m (fst ij) with
          | Some r =>
              match nth_error r (snd ij) with
              | Some v => Ok v
              | None => Raise IndexError
              end
          | None => Raise IndexError
          end)
       (combine rows cols).

Definition drmsd (a b : matrix) : result num :=
  let a_ := pairwise_internal_dist a in
  let b_ := pairwise_internal_dist b in
  let i := triu_indices (nrows a_) (ncols a_) 1 in
  av <- index2 a_ (fst i) (snd i) ;;
  bv <- index2 b_ (fst i) (snd i) ;;
  let mse := mse_loss av bv in
  Ok (nsqrt mse).

(** [np.concatenate] of a list of 1-d arrays: [ValueError] on no array. *)
Definition np_concatenate {X : Type} (l : list (list X)) : result (list X) :=
  match l with
  | [] => Raise ValueError
  | _ => Ok (concat l)
  end.

(** [torch.index_select(a, 0, index)] *)
Definition index_select {X : Type} (a : list X) (index : list nat)
  : result (list X) :=
  mapM (fun k => match nth_error a k with
                 | Some v => Ok v
                 | None => Raise IndexError
                 end)
       index.

(** [_tile(a, 0, n_tile)] for a 1-d tensor [a]. *)
Definition _tile {X : Type} (a : list X) (n_tile : nat) : result (list X) :=
  let init_dim := length a in
  let a := concat (repeat a n_tile) in
  order_index <-
    np_concatenate
      (map (fun i => map (fun t => (init_dim * t + i)%nat) (seq 0 n_tile))
           (seq 0 init_dim)) ;;
  index_select a order_index.

(** [n // m] on Python integers that are not negative. *)
Definition floordiv (n m : nat) : result nat :=
  match m with
  | O => Raise ZeroDivisionError
  | _ => Ok (Nat.div n m)
  end.

(** The token that marks batch padding in [s != 20]. *)
Definition PAD_TOKEN : Z := 20.

Section BatchDrmsd.

(** [sidechainnet.structure.build_info.NUM_COORDS_PER_RES], a count. *)
Variable NUM_COORDS_PER_RES : nat.

(** Lines 31 to 35: the two coordinate tensors handed to [drmsd]. *)
Definition mask_protein (pc tc : matrix) (s : list Z)
  : result (matrix * matrix) :=
  batch_padding <-
    _tile (map (fun t => negb (Z.eqb t PAD_TOKEN)) s) NUM_COORDS_PER_RES ;;
  tc <- bool_index tc batch_padding ;;
  let missing_atoms := map (forallb isnan) tc in
  tc' <- bool_index tc (map negb missing_atoms) ;;
  pc <- bool_index pc (map negb missing_atoms) ;;
  Ok (tc', pc).

(** The body of the loop, on the accumulators [(drmsds, raw_drmsds)]. *)
Definition batch_step (acc : num * num) (pc tc : matrix) (s : list Z)
  : result (num * num) :=
  m <- mask_protein pc tc s ;;
  let '(tc, pc) := m in
  d <- drmsd tc pc ;;
  k <- floordiv (length tc) NUM_COORDS_PER_RES ;;
  Ok (nadd (fst acc) (ndiv d (Fin (INR k))), nadd (snd acc) d).

Fixpoint batch_loop (acc : num * num)
         (l : list (matrix * (matrix * list Z))) : result (num * num) :=
  match l with
  | [] => Ok acc
  | (pc, (tc, s)) :: t =>
      acc <- batch_step acc pc tc s ;;
      batch_loop acc t
  end.

(** The value returned, [drmsds.mean()], is [drmsds] itself. *)
Definition compute_batch_drmsd (true_coordinates pred_coordinates : list matrix)
           (seq : list (list Z)) : result num :=
  acc <- batch_loop (Fin 0, Fin 0)
                    (combine pred_coordinates (combine true_coordinates seq)) ;;
  Ok (fst acc).

End BatchDrmsd.

(** *** Angles: tensors of any shape, by their entries in row-major order.

    The two arguments of the angle functions have one shape; broadcasting
    between different shapes is not modelled. *)

Record tensor : Type := Tensor { shape : list nat; data : list num }.

(** [a - b], entry by entry. *)
Definition tsub (a b : tensor) : tensor :=
  Tensor (shape a)
         (map (fun p => nsub (fst p) (snd p)) (combine (data a) (data b))).

(** [x[mask]] with a boolean mask of the shape of [x]: a 1-d tensor.  A
    mask of another shape is an [IndexError] (a mask that covers the
    leading axes only is not modelled). *)
Definition masked (x : tensor) (mask_shape : list nat) (mask : list bool)
  : result (list num) :=
  if list_eq_dec Nat.eq_dec (shape x) mask_shape
  then bool_index (data x) mask
  else Raise IndexError.

Definition angle_mse (true pred : tensor) : result num :=
  let ang_non_nans := map (fun x => negb (isnan x)) (data true) in
  p <- masked pred (shape true) ang_non_nans ;;
  t <- masked true (shape true) ang_non_nans ;;
  Ok (mse_loss p t).

(** [error[cond(error)] = f(error[cond(error)])], in place. *)
Definition update_where (cond : num -> bool) (f : num -> num) (x : tensor)
  : tensor :=
  Tensor (shape x) (map (fun e => if cond e then f e else e) (data x)).

Definition angle_diff (true pred : tensor) : tensor :=
  let error := tsub true pred in
  let error := update_where (fun e => ngt e (Fin PI))
                            (fun e => nsub e (Fin (2 * PI))) error in
  let error := update_where (fun e => nlt e (Fin (- PI)))
                            (fun e => nadd e (Fin (2 * PI))) error in
  error.

Definition angle_mae (true pred : tensor) : num :=
  let absolute_error := map nabs (data (angle_diff true pred)) in
  nanmean absolute_error.

(** *** Vocabulary of the statements about the losses *)

(** Coordinates without NaN or infinity, as a tensor. *)
Definition lift (x : list (list R)) : matrix := map (map Fin) x.

(** The pairs [(l_i, l_j)] with [i < j], row by row. *)
Fixpoint upper_pairs {X : Type} (l : list X) : list (X * X) :=
  match l with
  | [] => []
  | x :: t => map (pair x) t ++ upper_pairs t
  end.

Definition rsum (l : list R) : R := fold_right Rplus 0 l.

(** The squared Euclidean distance of two points, and the distance. *)
Definition sq_dist (p q : list R) : R :=
  rsum (map (fun c => (fst c - snd c) * (fst c - snd c)) (combine p q)).


(** The Euclidean distance with its square clamped from below at
    [clamp_eps]. *)
Definition clamped_dist (p q : list R) : R :=
  sqrt (Rmax (sq_dist p q) clamp_eps).

(** The square root of the mean, over the pairs [i < j], of the squared
    difference between the distance matrices of [a] and [b]. *)
Definition drmsd_of (dist : list R -> list R -> R) (a b : list (list R))
  : num :=
  nsqrt
    (nmean
       (map (fun c =>
               Fin ((dist (fst (fst c)) (snd (fst c))
                     - dist (fst (snd c)) (snd (snd c)))
                    * (dist (fst (fst c)) (snd (fst c))
                       - dist (fst (snd c)) (snd (snd c)))))
            (combine (upper_pairs a) (upper_pairs b)))).

(** The squared distance the way [pairwise_internal_dist] computes it,
    [|q|^2 - 2 p.q + |p|^2], and the entry of the distance matrix. *)
Definition sumsq (row : list R) : R := rsum (map (fun v => v * v) row).

Definition dotR (p q : list R) : R :=
  rsum (map (fun c => fst c * snd c) (combine p q)).

Definition gram_dist (p q : list R) : R :=
  sqrt (Rmax (sumsq q + -2 * dotR p q + sumsq p) clamp_eps).

(** An index pair moved one row down and one column right. *)
Definition shift (ij : nat * nat) : nat * nat := (S (fst ij), S (snd ij)).

(** One entry of the distance matrix, from two rows and their norms. *)
Definition dist_entry (i j : list num * num) : num :=
  nsqrt (clamp_min
           (nadd (nadd (snd j) (nmul (Fin (-2)) (dot (fst i) (fst j))))
                 (snd i))
           clamp_eps).

(** [n] copies of every entry, in place. *)
Definition repeat_each {X : Type} (n : nat) (l : list X) : list X :=
  flat_map (fun x => repeat x n) l.

(** The number of entries of a tensor of the given shape; a tensor holds
    that many entries. *)
Definition numel (s : list nat) : nat := fold_right Nat.mul 1%nat s.

Definition wf (t : tensor) : Prop := length (data t) = numel (shape t).

(** The mean squared error over the positions where [true] is not NaN. *)
Definition mse_where_not_nan (true pred : list num) : num :=
  nmean (map (fun c => nmul (nsub (snd c) (fst c)) (nsub (snd c) (fst c)))
             (filter (fun c => negb (isnan (fst c))) (combine true pred))).

(** The signed difference [t - p] of two angles, wrapped once. *)
Definition signed_diff (t p : num) : num :=
  let e := nsub t p in
  if ngt e (Fin PI) then nsub e (Fin (2 * PI))
  else if nlt e (Fin (- PI)) then nadd e (Fin (2 * PI))
  else e.

(** The mean of the absolute values of the entries that are not NaN. *)
Definition mean_abs_not_nan (l : list num) : num :=
  nmean (map nabs (filter (fun x => negb (isnan x)) l)).

(** An angle in [[-pi, pi]]. *)
Definition is_angle (x : num) : Prop :=
  match x with
  | Fin r => - PI <= r <= PI
  | _ => False
  end.

(** An entry of an angle tensor: an angle in [[-pi, pi]], or NaN where the
    angle is missing. *)
Definition angle_or_nan (x : num) : Prop :=
  match x with
  | Fin r => - PI <= r <= PI
  | NaN => True
  | _ => False
  end.

End Losses.

(** Concrete tensors, used in the examples. *)

Module LossesData.

Import Losses.

Local Open Scope R_scope.


Definition apart : list (list R) := [[0; 0; 0]; [3e-15; 0; 0]].

(** Two points, the first with a missing (NaN) coordinate. *)
Definition nan_point : matrix :=
  [[NaN; Fin 0; Fin 0]; [Fin 0; Fin 0; Fin 0]].

Definition two_points : list (list R) := [[0; 0; 0]; [1; 0; 0]].

(** One protein of two residues, the second one batch padding, with
    fourteen atoms per residue; the predicted tensor has the shape of the
    true tensor. *)
Definition padded_seq : list Z := [0%Z; 20%Z].

Definition padded_true : matrix :=
  repeat [Fin 1; Fin 2; Fin 3] 14 ++ repeat [Fin 0; Fin 0; Fin 0] 14.

Definition padded_pred : matrix :=
  repeat [Fin 1; Fin 2; Fin 4] 14 ++ repeat [Fin 0; Fin 0; Fin 0] 14.

(** Angle tensors of shape 2 x 2, NaN where an angle is missing. *)
Definition true_angles : tensor :=
  Tensor [2%nat; 2%nat] [Fin 1; NaN; Fin 0; NaN].

Definition pred_angles : tensor :=
  Tensor [2%nat; 2%nat] [Fin 3; Fin 5; Fin 0; Fin 7].

Definition pred_angles' : tensor :=
  Tensor [2%nat; 2%nat] [Fin 3; NaN; Fin 0; Fin 9].

(** One protein of two residues with one atom each, no padding. *)
Definition short_seq : list Z := [0%Z; 1%Z].

Definition short_pred : list (list R) := [[0; 0; 0]; [3; 0; 0]].

Definition half_turns : tensor := Tensor [2%nat] [Fin PI; Fin 0].

Definition back_turns : tensor := Tensor [2%nat] [Fin (- PI); Fin 0].

End LossesData.

(** ** Further vocabulary and data *)

Module CollateMore.

Import Collate.

(** The entries of a rank 1 array. *)
Definition xs_of {A : Type} (a : ndarray A) : list A :=
  match a with
  | Arr1 xs => xs
  | Arr2 _ _ => []
  end.

(** The length of [l[:stop]] for a list [l] of [n] entries. *)
Definition slice_len (stop : option Z) (n : nat) : nat :=
  match stop with
  | None => n
  | Some k =>
      if (0 <=? k)%Z then Nat.min (Z.to_nat k) n
      else Z.to_nat (Z.of_nat n + k)
  end.

(** A batch of rank 2 instances of two widths. *)
Definition two_widths : list (ndarray Z) :=
  [Arr2 2 [[1; 2]%Z]; Arr2 3 [[1; 2; 3]%Z]].

End CollateMore.

Module LossesMore.

Import Losses.

Local Open Scope R_scope.

(** One entry of [x1_norm]: the sum of the squares of a row. *)
Definition row_norm (row : list num) : num :=
  nsum (map (fun v => nmul v v) row).

(** Lines 31 and 32 of [compute_batch_drmsd]: the batch padding of the
    sequence [s] is removed from the true coordinates [tc]. *)
Definition remove_batch_padding (NUM_COORDS_PER_RES : nat) (tc : matrix)
           (s : list Z) : result matrix :=
  batch_padding <-
    _tile (map (fun t => negb (Z.eqb t PAD_TOKEN)) s) NUM_COORDS_PER_RES ;;
  bool_index tc batch_padding.

Definition one_point : matrix := [[Fin 1; Fin 2; Fin 3]].

(** An angle tensor with every entry missing, and a prediction for it. *)
Definition all_missing : tensor := Tensor [2%nat] [NaN; NaN].

Definition some_pred : tensor := Tensor [2%nat] [Fin 1; NaN].

(** Two proteins of two and one residues, two atoms per residue. *)
Definition small_seqs : list (list Z) := [[1; 2]%Z; [3]%Z].


End LossesMore.

(** ** collate.py with the element types

    [Collate.collate_fn] follows the shapes of the arrays and the places
    of their entries; the element type of an array is not part of it.
    The program converts every entry twice on its way into the batch:
    [np.concatenate] of an instance with its float64 pad block gives a
    float64 array (lines 37 to 40), and [torch.LongTensor] or
    [torch.FloatTensor] turns the float64 batch into an int64 or a float32
    tensor (lines 50 to 53).  [CollateCast.collate_fn] is [collate_fn]
    with these conversions. *)

Module CollateCast.

Import Collate.

Section CollateCast.

Variable A : Type.

(** The float64 entries [0.] of [np.zeros] and [1. * VOCAB.pad_id] of
    [np.ones(..) * VOCAB.pad_id]. *)
Variable zero : A.
Variable pad_id : A.

Variable NUM_COORDS_PER_RES : nat.

(** The float64 value of an entry of an instance, and the int64 and the
    float32 value of a float64 entry. *)
Variable to_float64 : A -> A.
Variable to_long : A -> A.
Variable to_float : A -> A.

(** Every entry of an array converted, the shape kept. *)
Definition astype (f : A -> A) (a : ndarray A) : ndarray A :=
  match a with
  | Arr1 xs => Arr1 (map f xs)
  | Arr2 n rows => Arr2 n (map (map f) rows)
  end.

(** [np.concatenate((inst, z), axis=0)] with a float64 block [z]: the
    result has the common element type of the two, float64. *)
Definition concatenate (inst z : ndarray A) : result (ndarray A) :=
  Collate.concatenate (astype to_float64 inst) z.

(** [torch.LongTensor(batch)] and [torch.FloatTensor(batch)] of a float64
    array. *)
Definition LongTensor (batch : list (ndarray A)) : tensor A :=
  Tensor Long (map (astype to_long) batch).

Definition FloatTensor (batch : list (ndarray A)) : tensor A :=
  Tensor Float (map (astype to_float) batch).

Definition collate_fn (insts : list (ndarray A)) (coords sequences : bool)
           (max_seq_len : option Z) : result (tensor A) :=
  max_batch_len <- py_max (map (@len A) insts) ;;
  batch <- mapM (fun inst =>
                   concatenate inst
                     (pad_block zero pad_id sequences max_batch_len inst))
                insts ;;
  batch <- np_array batch ;;
  batch <- (if coords
            then stop <- mul_coords NUM_COORDS_PER_RES max_seq_len ;;
                 Ok (map (slice_arr stop) batch)
            else Ok (map (slice_arr max_seq_len) batch)) ;;
  Ok (if sequences then LongTensor batch else FloatTensor batch).

Definition paired_collate_fn (insts : list (ndarray A * ndarray A * ndarray A))
  : result (tensor A * tensor A * tensor A) :=
  z <- unzip3 insts ;;
  let '(sequences, angles, coords) := z in
  sequences <- collate_fn sequences false true (Some MAX_SEQ_LEN) ;;
  angles <- collate_fn angles false false (Some MAX_SEQ_LEN) ;;
  coords <- collate_fn coords true false (Some MAX_SEQ_LEN) ;;
  Ok (sequences, angles, coords).

(** *** Vocabulary of the statements *)

(** The conversion of the tensor constructor that [collate_fn] picks. *)
Definition cast (sequences : bool) : A -> A :=
  if sequences then to_long else to_float.

(** What becomes of an entry of an instance: float64 first, then the
    element type of the tensor. *)
Definition converted (sequences : bool) (x : A) : A :=
  cast sequences (to_float64 x).

(** The entries of an array, row by row. *)
Definition entries (a : ndarray A) : list A :=
  match a with
  | Arr1 xs => xs
  | Arr2 _ rows => concat rows
  end.

(** Both conversions leave every entry of every instance, and the pad
    value, as they are. *)
Definition exact_on (sequences : bool) (insts : list (ndarray A)) : Prop :=
  (forall inst x, In inst insts -> In x (entries inst) ->
                  converted sequences x = x) /\
  cast sequences (if sequences then pad_id else zero)
  = (if sequences then pad_id else zero).

End CollateCast.

End CollateCast.

(** Array entries with their element type: int64, float64 and float32,
    the floats as IEEE 754 values of the standard library's
    [SpecFloat]. *)

Module Scalar.

Import SpecFloat.

Inductive scalar : Type :=
| Int64 (z : Z)
| Float64 (x : spec_float)
| Float32 (x : spec_float).

(** An integer as a float of [prec] bits, rounded to nearest, ties to
    even. *)
Definition of_Z (prec emax : Z) (z : Z) : spec_float :=
  binary_normalize prec emax z 0 false.

(** A float as a float of [prec] bits, rounded to nearest, ties to even. *)
Definition round (prec emax : Z) (x : spec_float) : spec_float :=
  match x with
  | S754_finite s m e => binary_round prec emax s m e
  | _ => x
  end.

(** The integer part of a float, towards zero; none for NaN and the
    infinities. *)
Definition trunc (x : spec_float) : option Z :=
  match x with
  | S754_zero _ => Some 0%Z
  | S754_finite s m e => Some (cond_Zopp s (Z.shiftl (Zpos m) e))
  | _ => None
  end.

Definition INT64_MIN : Z := (- 2 ^ 63)%Z.

(** A float as an int64: the integer part when it is in range; out of
    range, for NaN and for the infinities the value x86-64 gives,
    [INT64_MIN]. *)
Definition float_to_long (x : spec_float) : Z :=
  match trunc x with
  | Some z => if ((INT64_MIN <=? z) && (z <? 2 ^ 63))%Z then z else INT64_MIN
  | None => INT64_MIN
  end.

Definition to_float64 (v : scalar) : scalar :=
  match v with
  | Int64 z => Float64 (of_Z 53 1024 z)
  | Float64 x => Float64 x
  | Float32 x => Float64 (round 53 1024 x)
  end.

Definition to_long (v : scalar) : scalar :=
  match v with
  | Int64 z => Int64 z
  | Float64 x => Int64 (float_to_long x)
  | Float32 x => Int64 (float_to_long x)
  end.

Definition to_float (v : scalar) : scalar :=
  match v with
  | Int64 z => Float32 (of_Z 24 128 z)
  | Float64 x => Float32 (round 24 128 x)
  | Float32 x => Float32 x
  end.

(** [0.] and [1. * VOCAB.pad_id] with [VOCAB.pad_id = 20]. *)
Definition zero : scalar := Float64 (S754_zero false).

Definition pad_id : scalar := Float64 (of_Z 53 1024 20).

(** The tokens of a sequence, and float32 and float64 coordinates with
    integer values. *)
Definition tokens (l : list Z) : Collate.ndarray scalar :=
  Collate.Arr1 (map Int64 l).

Definition f32 (z : Z) : scalar := Float32 (of_Z 24 128 z).

Definition f64 (z : Z) : scalar := Float64 (of_Z 53 1024 z).

Definition two_seqs : list (Collate.ndarray scalar) :=
  [tokens [1; 2; 3]%Z; tokens [4]%Z].

Definition big_tokens : list (Collate.ndarray scalar) :=
  [tokens [2 ^ 53 + 1; 2 ^ 63 - 1]%Z].

Definition odd_angle : list (Collate.ndarray scalar) :=
  [Collate.Arr2 1 [[f64 16777217]]].

Definition two_atoms : list (Collate.ndarray scalar) :=
  [Collate.Arr2 3 [[f32 1; f32 2; f32 3]; [f32 4; f32 5; f32 6]];
   Collate.Arr2 3 [[f32 7; f32 8; f32 9]]].

Definition same_length : list (Collate.ndarray scalar) :=
  [tokens [1; 2; 3]%Z; tokens [4; 5; 6]%Z].

End Scalar.

(** ** losses.py in the arithmetic of the tensors

    [Losses] takes a finite float for the real number it stands for.  The
    program computes in the floating-point arithmetic of its tensors,
    where a sum of squares can overflow and [|q|^2 - 2 p.q + |p|^2] can
    cancel.  The functions behind [drmsd] are given here over an
    arithmetic that is a parameter: [exact] is the arithmetic of [Losses],
    [binary32] is IEEE 754 single precision, the element type of
    [torch.FloatTensor]. *)

Module Arith.

Record arith : Type := Arith {
  F : Type;
  (** [0.], where a sum starts *)
  fzero : F;
  (** [alpha = -2] *)
  falpha : F;
  (** the number of entries of a tensor, the divisor of [mean] *)
  fcount : nat -> F;
  fadd : F -> F -> F;
  fsub : F -> F -> F;
  fmul : F -> F -> F;
  fdiv : F -> F -> F;
  fsqrt : F -> F;
  (** [clamp_min_(1e-30)] *)
  fclamp : F -> F
}.

Section Generic.

Variable K : arith.

Local Abbreviation F := (F K).

(** [x.sum()] and [x.mean()] of a 1-d tensor. *)
Definition sum (l : list F) : F := fold_left (fadd K) l (fzero K).

Definition mean (l : list F) : F := fdiv K (sum l) (fcount K (length l)).

(** [torch.nn.functional.mse_loss(input, target)] *)
Definition mse_loss (input target : list F) : F :=
  mean (map (fun p => fmul K (fsub K (fst p) (snd p))
                             (fsub K (fst p) (snd p)))
            (combine input target)).

Definition nrows (m : list (list F)) : nat := length m.

Definition ncols (m : list (list F)) : nat :=
  match m with
  | [] => 0%nat
  | r :: _ => length r
  end.

(** One entry of [x1 @ x2.transpose(-2, -1)]. *)
Definition dot (u v : list F) : F :=
  sum (map (fun p => fmul K (fst p) (snd p)) (combine u v)).

(** [x1.pow(2).sum(dim=-1, keepdim=True)] *)
Definition x1_norm (x : list (list F)) : list F :=
  map (fun row => sum (map (fun v => fmul K v v) row)) x.

(** [addmm(x1_norm^T, x1, x2^T, alpha=-2).add_(x1_norm)], then
    [clamp_min_(1e-30).sqrt_()]. *)
Definition pairwise_internal_dist (x : list (list F)) : list (list F) :=
  let xn := combine x (x1_norm x) in
  map (fun i =>
         map (fun j =>
                fsqrt K (fclamp K
                           (fadd K (fadd K (snd j)
                                           (fmul K (falpha K)
                                                 (dot (fst i) (fst j))))
                                   (snd i))))
             xn)
      xn.

(** [m[rows, cols]]: one entry per index pair. *)
Definition index2 (m : list (list F)) (rows cols : list nat)
  : result (list F) :=
  mapM (fun ij =>
          match nth_error m (fst ij) with
          | Some r =>
              match nth_error r (snd ij) with
              | Some v => Ok v
              | None => Raise IndexError
              end
          | None => Raise IndexError
          end)
       (combine rows cols).

(** [drmsd]; [.float()] leaves the entries of a float32 tensor as they
    are. *)
Definition drmsd (a b : list (list F)) : result F :=
  let a_ := pairwise_internal_dist a in
  let b_ := pairwise_internal_dist b in
  let i := Losses.triu_indices (nrows a_) (ncols a_) 1 in
  av <- index2 a_ (fst i) (snd i) ;;
  bv <- index2 b_ (fst i) (snd i) ;;
  let mse := mse_loss av bv in
  Ok (fsqrt K mse).

(** *** Vocabulary of the statements *)

(** The sum of the squares of the coordinates of a point. *)
Definition norm (p : list F) : F := sum (map (fun v => fmul K v v) p).

(** The entry of the distance matrix for the points [p] and [q]:
    [sqrt (max (|q|^2 + -2 * p.q + |p|^2) 1e-30)], every operation in the
    arithmetic [K]. *)
Definition dist (p q : list F) : F :=
  fsqrt K (fclamp K (fadd K (fadd K (norm q)
                                    (fmul K (falpha K) (dot p q)))
                            (norm p))).


(** The rules of IEEE 754 arithmetic that the statements rest on, for the
    values [finite] picks out (not NaN, not an infinity): [(x - y)^2] and
    [(y - x)^2] are one value, [x - x] is [0.] for a finite [x], and
    [0. * 0.], [0. + 0.], [0. / n] for a count [n >= 1] and [sqrt 0.] are
    [0.]. *)
Record ieee (finite : F -> bool) : Prop := Ieee {
  sq_sub_comm : forall x y,
      fmul K (fsub K x y) (fsub K x y) = fmul K (fsub K y x) (fsub K y x);
  sub_diag : forall x, finite x = true -> fsub K x x = fzero K;
  mul_zero : fmul K (fzero K) (fzero K) = fzero K;
  add_zero : fadd K (fzero K) (fzero K) = fzero K;
  div_zero : forall n, fdiv K (fzero K) (fcount K (S n)) = fzero K;
  sqrt_zero : fsqrt K (fzero K) = fzero K
}.

End Generic.

(** The arithmetic of [Losses]: exact on finite values. *)
Definition exact : arith :=
  {| F := Losses.num;
     fzero := Losses.Fin 0;
     falpha := Losses.Fin (-2);
     fcount := fun n => Losses.Fin (INR n);
     fadd := Losses.nadd;
     fsub := Losses.nsub;
     fmul := Losses.nmul;
     fdiv := Losses.ndiv;
     fsqrt := Losses.nsqrt;
     fclamp := fun x => Losses.clamp_min x Losses.clamp_eps |}.

Definition exact_finite (x : Losses.num) : bool :=
  match x with
  | Losses.Fin _ => true
  | _ => false
  end.

End Arith.

(** IEEE 754 single precision. *)

Module Binary32.

Import SpecFloat.

Definition prec : Z := 24.

Definition emax : Z := 128.

Definition of_Z (z : Z) : spec_float := binary_normalize prec emax z 0 false.

(** The float32 nearest to [1e-30], [10633824 * 2^-123]. *)
Definition eps : spec_float := S754_finite false 10633824 (-123).

(** [x.clamp_min(c)]: the larger of the two, NaN for NaN. *)
Definition clamp_min (x c : spec_float) : spec_float :=
  if SFltb x c then c else x.

(** [torch.isfinite] *)
Definition finite (x : spec_float) : bool :=
  match x with
  | S754_zero _ => true
  | S754_finite _ _ _ => true
  | _ => false
  end.

Definition binary32 : Arith.arith :=
  {| Arith.F := spec_float;
     Arith.fzero := S754_zero false;
     Arith.falpha := of_Z (-2);
     Arith.fcount := fun n => of_Z (Z.of_nat n);
     Arith.fadd := SFadd prec emax;
     Arith.fsub := SFsub prec emax;
     Arith.fmul := SFmul prec emax;
     Arith.fdiv := SFdiv prec emax;
     Arith.fsqrt := SFsqrt prec emax;
     Arith.fclamp := fun x => clamp_min x eps |}.

(** Points with integer coordinates. *)
Definition points (l : list (list Z)) : list (list spec_float) :=
  map (map of_Z) l.

(** Two points 1 apart, the same two points moved by 10000 along the
    first axis, two points 3 apart, and a point whose first coordinate,
    [2^64], has a square above the largest float32. *)
Definition unit_pair : list (list spec_float) :=
  points [[0; 0; 0]; [1; 0; 0]]%Z.

Definition moved_pair : list (list spec_float) :=
  points [[10000; 0; 0]; [10001; 0; 0]]%Z.


Definition huge_pair : list (list spec_float) :=
  points [[2 ^ 64; 0; 0]; [0; 0; 0]]%Z.

End Binary32.

(** The term that one protein adds to [drmsds] in [compute_batch_drmsd]:
    its [drmsd] over its number of residues (lines 31 to 38). *)

Module BatchScore.

Import Losses.

Definition protein_score (NUM_COORDS_PER_RES : nat)
           (p : matrix * (matrix * list Z)) : result num :=
  let '(pc, (tc, s)) := p in
  m <- mask_protein NUM_COORDS_PER_RES pc tc s ;;
  let '(tc, pc) := m in
  d <- drmsd tc pc ;;
  k <- floordiv (length tc) NUM_COORDS_PER_RES ;;
  Ok (ndiv d (Fin (INR k))).

End BatchScore.

(** The values that a clamped square root can take. *)

Module Range.

Import Losses.

(** NaN, [+inf], or a number that is at least [c]. *)
Definition nan_or_at_least (c : R) (v : num) : Prop :=
  match v with
  | NaN => True
  | PInf => True
  | NInf => False
  | Fin r => (c <= r)%R
  end.

End Range.

(** * Properties of collate.py *)

Module CollateTheory.

Import Collate.

Lemma fold_left_max_right (l : list nat) (x : nat) :
  fold_left Nat.max l x = Nat.max x (fold_right Nat.max 0 l).
Proof.
  revert x. induction l as [|y l IH]; intros x; simpl.
  - now rewrite Nat.max_0_r.
  - rewrite IH. now rewrite Nat.max_assoc.
Qed.

Lemma slice_upto_length {X Y : Type} (stop : option Z)
      (l : list X) (l' : list Y) :
  length l = length l' ->
  length (slice_upto stop l) = length (slice_upto stop l').
Proof.
  intros H. destruct stop as [k|]; simpl; trivial.
  destruct (0 <=? k)%Z; rewrite !length_firstn, H; reflexivity.
Qed.

Lemma slice_upto_all {X : Type} (stop : option Z) (l : list X) :
  match stop with
  | None => True
  | Some k => (Z.of_nat (length l) <= k)%Z
  end ->
  slice_upto stop l = l.
Proof.
  destruct stop as [k|]; simpl; trivial.
  intros H. destruct (0 <=? k)%Z eqn:E.
  - apply firstn_all2. lia.
  - apply Z.leb_gt in E. lia.
Qed.

Lemma slice_upto_bound {X : Type} (k : Z) (l : list X) :
  (0 <= k)%Z -> (Z.of_nat (length (slice_upto (Some k) l)) <= k)%Z.
Proof.
  intros H. simpl. apply Z.leb_le in H as E. rewrite E.
  rewrite length_firstn. lia.
Qed.

Section CollateTheory.

Variable A : Type.
Variable zero : A.
Variable pad_id : A.
Variable NUM_COORDS_PER_RES : nat.

Local Abbreviation ndarray := (ndarray A).
Local Abbreviation pad_to := (pad_to zero pad_id).
Local Abbreviation collate_fn := (collate_fn zero pad_id NUM_COORDS_PER_RES).
Local Abbreviation paired_collate_fn :=
  (paired_collate_fn zero pad_id NUM_COORDS_PER_RES).
Local Abbreviation trim_stop := (trim_stop NUM_COORDS_PER_RES).

Lemma py_max_len (insts : list ndarray) :
  insts <> [] -> py_max (map (@len A) insts) = Ok (max_len insts).
Proof.
  destruct insts as [|a t]; [congruence|]. intros _.
  unfold max_len. simpl. now rewrite fold_left_max_right.
Qed.

Lemma len_le_max_len (insts : list ndarray) (a : ndarray) :
  In a insts -> len a <= max_len insts.
Proof.
  unfold max_len. induction insts as [|b t IH]; simpl; [tauto|].
  intros [->|H]; [apply Nat.le_max_l|].
  eapply Nat.le_trans; [apply IH, H | apply Nat.le_max_r].
Qed.

Lemma len_pad_to (n : nat) (a : ndarray) :
  len a <= n -> len (pad_to n a) = n.
Proof.
  destruct a as [xs|w rows]; simpl; intros H;
    rewrite length_app, repeat_length; lia.
Qed.

Lemma inner_shape_pad_to (n : nat) (a b : ndarray) :
  inner_shape_eqb (pad_to n a) (pad_to n b) = inner_shape_eqb a b.
Proof. destruct a, b; reflexivity. Qed.

Lemma concatenate_pad_block (sequences : bool) (n : nat) (a : ndarray) :
  rank_ok sequences a = true ->
  concatenate a (pad_block zero pad_id sequences n a) = Ok (pad_to n a).
Proof.
  destruct a as [xs|w rows], sequences; simpl; try discriminate; intros _.
  - reflexivity.
  - now rewrite Nat.eqb_refl.
Qed.

Lemma mapM_pad (sequences : bool) (n : nat) (insts : list ndarray) :
  forallb (rank_ok sequences) insts = true ->
  mapM (fun inst => concatenate inst (pad_block zero pad_id sequences n inst))
       insts
  = Ok (map (pad_to n) insts).
Proof.
  induction insts as [|a t IH]; simpl; [reflexivity|].
  intros H. apply andb_prop in H as [Ha Ht].
  rewrite (concatenate_pad_block _ _ _ Ha). simpl.
  now rewrite (IH Ht).
Qed.

Lemma np_array_padded (sequences : bool) (insts : list ndarray) :
  well_shaped sequences insts = true ->
  np_array (map (pad_to (max_len insts)) insts)
  = Ok (map (pad_to (max_len insts)) insts).
Proof.
  unfold well_shaped. intros H. apply andb_prop in H as [_ H].
  destruct insts as [|a t]; [reflexivity|].
  set (n := max_len (a :: t)).
  assert (Hn : forall b, In b (a :: t) -> len b <= n)
    by (intros b Hb; now apply len_le_max_len).
  cbn [map np_array].
  replace (forallb _ (map (pad_to n) t)) with true; [reflexivity|].
  symmetry. apply forallb_forall. intros b' Hb'.
  apply in_map_iff in Hb' as [b [<- Hb]].
  rewrite inner_shape_pad_to.
  rewrite forallb_forall in H. rewrite (H b Hb). simpl.
  rewrite !len_pad_to; [apply Nat.eqb_refl | |]; apply Hn; simpl; tauto.
Qed.

(** What [collate_fn] computes on a well-shaped batch: every instance is
    padded to the longest one, then trimmed by the slice. *)
Lemma collate_fn_eq (insts : list ndarray) (coords sequences : bool)
      (max_seq_len stop : option Z) :
  insts <> [] ->
  well_shaped sequences insts = true ->
  trim_stop coords max_seq_len = Ok stop ->
  collate_fn insts coords sequences max_seq_len
  = Ok (Tensor (if sequences then Long else Float)
               (map (fun inst => slice_arr stop (pad_to (max_len insts) inst))
                    insts)).
Proof.
  intros Hne Hws Hstop. unfold Collate.collate_fn.
  rewrite (py_max_len Hne). cbn [bind].
  assert (Hr : forallb (rank_ok sequences) insts = true).
  { unfold well_shaped in Hws. now apply andb_prop in Hws as [? _]. }
  rewrite (mapM_pad _ _ _ Hr). cbn [bind].
  rewrite (np_array_padded _ _ Hws). cbn [bind].
  unfold Collate.trim_stop in Hstop.
  destruct coords.
  - rewrite Hstop. cbn [bind]. now rewrite map_map.
  - injection Hstop as ->. cbn [bind]. now rewrite map_map.
Qed.

Lemma len_slice_arr (stop : option Z) (a b : ndarray) :
  len a = len b -> len (slice_arr stop a) = len (slice_arr stop b).
Proof.
  destruct a, b; simpl; intros H; now apply slice_upto_length.
Qed.

Lemma slice_arr_all (stop : option Z) (a : ndarray) :
  keeps_all stop (len a) -> slice_arr stop a = a.
Proof.
  destruct a; simpl; intros H; f_equal; now apply slice_upto_all.
Qed.

Lemma len_slice_arr_bound (k : Z) (a : ndarray) :
  (0 <= k)%Z -> (Z.of_nat (len (slice_arr (Some k) a)) <= k)%Z.
Proof.
  destruct a; cbn [slice_arr len]; intros H; now apply slice_upto_bound.
Qed.

Lemma len_slice_arr_min (k : Z) (a : ndarray) :
  (0 <= k)%Z -> len (slice_arr (Some k) a) = Nat.min (Z.to_nat k) (len a).
Proof.
  intros H. apply Z.leb_le in H.
  destruct a; cbn [slice_arr len slice_upto]; rewrite H;
    apply length_firstn.
Qed.

(** C10 (confirmed).  On an empty list of instances [collate_fn] raises
    ([max] of an empty sequence is a [ValueError]), whatever [coords],
    [sequences] and [max_seq_len] are; so a call that returns a batch was
    given at least one instance. *)
Theorem collate_fn_empty_raises (coords sequences : bool)
        (max_seq_len : option Z) :
  collate_fn [] coords sequences max_seq_len = Raise ValueError /\
  forall insts t,
    collate_fn insts coords sequences max_seq_len = Ok t -> insts <> [].
Proof.
  split; [reflexivity|].
  intros insts t H ->. discriminate H.
Qed.

Lemma well_shaped3_split (insts : list (ndarray * ndarray * ndarray)) :
  well_shaped3 insts = true ->
  well_shaped true (map (fun i => fst (fst i)) insts) = true /\
  well_shaped false (map (fun i => snd (fst i)) insts) = true /\
  well_shaped false (map snd insts) = true.
Proof.
  unfold well_shaped3. intros H.
  apply andb_prop in H as [H H3]. apply andb_prop in H as [H1 H2]. auto.
Qed.

(** What [paired_collate_fn] computes on a well-shaped batch. *)
Lemma paired_collate_fn_eq (insts : list (ndarray * ndarray * ndarray)) :
  insts <> [] ->
  well_shaped3 insts = true ->
  let seqs := map (fun i => fst (fst i)) insts in
  let angs := map (fun i => snd (fst i)) insts in
  let crds := map snd insts in
  paired_collate_fn insts
  = Ok (Tensor Long
               (map (fun a => slice_arr (Some MAX_SEQ_LEN)
                                        (pad_to (max_len seqs) a)) seqs),
        Tensor Float
               (map (fun a => slice_arr (Some MAX_SEQ_LEN)
                                        (pad_to (max_len angs) a)) angs),
        Tensor Float
               (map (fun a =>
                       slice_arr
                         (Some (MAX_SEQ_LEN * Z.of_nat NUM_COORDS_PER_RES)%Z)
                         (pad_to (max_len crds) a)) crds)).
Proof.
  intros Hne Hws seqs angs crds.
  apply well_shaped3_split in Hws as (H1 & H2 & H3).
  assert (N1 : seqs <> []) by (subst seqs; destruct insts; simpl; congruence).
  assert (N2 : angs <> []) by (subst angs; destruct insts; simpl; congruence).
  assert (N3 : crds <> []) by (subst crds; destruct insts; simpl; congruence).
  unfold Collate.paired_collate_fn.
  assert (U : unzip3 insts = Ok (seqs, angs, crds))
    by (destruct insts; [congruence | reflexivity]).
  rewrite U. cbn [bind].
  rewrite (collate_fn_eq false true (Some MAX_SEQ_LEN) N1 H1 eq_refl).
  cbn [bind].
  rewrite (collate_fn_eq false false (Some MAX_SEQ_LEN) N2 H2 eq_refl).
  cbn [bind].
  rewrite (collate_fn_eq true false (Some MAX_SEQ_LEN) N3 H3 eq_refl).
  reflexivity.
Qed.

Lemma Forall_len_sliced (k : Z) (n : nat) (l : list ndarray) :
  (0 <= k)%Z ->
  Forall (fun r => (Z.of_nat (len r) <= k)%Z)
         (map (fun a => slice_arr (Some k) (pad_to n a)) l).
Proof.
  intros H. apply Forall_forall. intros r Hr.
  apply in_map_iff in Hr as [a [<- _]]. now apply len_slice_arr_bound.
Qed.

(** C2 (amended).  For a non-empty, well-shaped list of instances and an
    integer [max_seq_len >= 0], [collate_fn] returns a batch of at most
    [max_seq_len] columns ([max_seq_len * NUM_COORDS_PER_RES] when
    [coords]); [paired_collate_fn] does so with [MAX_SEQ_LEN = 500] for
    its three outputs. *)
Theorem collate_fn_truncates (insts : list ndarray) (coords sequences : bool)
        (m : Z) (pinsts : list (ndarray * ndarray * ndarray)) :
  insts <> [] ->
  well_shaped sequences insts = true ->
  (0 <= m)%Z ->
  pinsts <> [] ->
  well_shaped3 pinsts = true ->
  (exists t,
      collate_fn insts coords sequences (Some m) = Ok t /\
      Forall (fun r =>
                (Z.of_nat (len r)
                 <= if coords then m * Z.of_nat NUM_COORDS_PER_RES else m)%Z)
             (t_rows t)) /\
  (exists s a c,
      paired_collate_fn pinsts = Ok (s, a, c) /\
      MAX_SEQ_LEN = 500%Z /\
      Forall (fun r => (Z.of_nat (len r) <= 500)%Z) (t_rows s) /\
      Forall (fun r => (Z.of_nat (len r) <= 500)%Z) (t_rows a) /\
      Forall (fun r =>
                (Z.of_nat (len r) <= 500 * Z.of_nat NUM_COORDS_PER_RES)%Z)
             (t_rows c)).
Proof.
  intros Hne Hws Hm Hpne Hpws. split.
  - eexists. split.
    + apply collate_fn_eq
        with (stop := Some (if coords
                            then m * Z.of_nat NUM_COORDS_PER_RES else m)%Z);
        try assumption.
      now destruct coords.
    + cbn [t_rows]. apply Forall_len_sliced. destruct coords; lia.
  - do 3 eexists. split; [apply paired_collate_fn_eq; assumption|].
    cbn [t_rows]. split; [reflexivity|].
    repeat split; apply Forall_len_sliced; unfold MAX_SEQ_LEN; lia.
Qed.

Lemma sliced_row_len (k : Z) (l : list ndarray) (a : ndarray) :
  (0 <= k)%Z -> In a l ->
  len (slice_arr (Some k) (pad_to (max_len l) a))
  = Nat.min (Z.to_nat k) (max_len l).
Proof.
  intros Hk Ha. rewrite (len_slice_arr_min _ Hk).
  now rewrite len_pad_to by (apply len_le_max_len, Ha).
Qed.

Lemma shape1_sliced (d : dtype) (k : Z) (l : list ndarray) :
  (0 <= k)%Z -> l <> [] ->
  shape1 (Tensor d (map (fun a => slice_arr (Some k) (pad_to (max_len l) a)) l))
  = Nat.min (Z.to_nat k) (max_len l).
Proof.
  intros Hk Hne. destruct l as [|a t]; [congruence|].
  unfold shape1. cbn [t_rows map].
  apply sliced_row_len; simpl; auto.
Qed.

Lemma max_len_coords (insts : list (ndarray * ndarray * ndarray)) :
  Forall (fun i => len (snd i) = NUM_COORDS_PER_RES * len (fst (fst i))) insts ->
  max_len (map snd insts)
  = NUM_COORDS_PER_RES * max_len (map (fun i => fst (fst i)) insts).
Proof.
  unfold max_len. induction 1 as [|i t Hi _ IH]; simpl.
  - now rewrite Nat.mul_0_r.
  - rewrite IH, Hi. apply Nat.mul_max_distr_l.
Qed.

Lemma rows_of_slice_arr (stop : option Z) (a : ndarray) :
  rows_of (slice_arr stop a) = slice_upto stop (rows_of a).
Proof.
  destruct a; simpl; [|reflexivity].
  destruct stop as [k|]; simpl; [|reflexivity].
  destruct (0 <=? k)%Z; now rewrite firstn_nil.
Qed.

Lemma len_rows_of (a : ndarray) :
  rank_ok false a = true -> length (rows_of a) = len a.
Proof. destruct a; simpl; [discriminate | reflexivity]. Qed.

(** C5 (confirmed).  When every coordinate instance has
    [NUM_COORDS_PER_RES] times the length of its sequence,
    [paired_collate_fn] returns rectangular tensors with
    [coords.shape[1] = NUM_COORDS_PER_RES * sequences.shape[1]]; the
    coordinate row of each protein is made of the whole atom groups of the
    residues [0 .. sequences.shape[1] - 1] of its padded instance: atom
    [j] of residue [i] is at row [i * NUM_COORDS_PER_RES + j], and no
    group is cut. *)
Theorem paired_collate_fn_residue_groups
        (insts : list (ndarray * ndarray * ndarray)) :
  insts <> [] ->
  well_shaped3 insts = true ->
  Forall (fun i => len (snd i) = NUM_COORDS_PER_RES * len (fst (fst i)))
         insts ->
  exists s a c,
    paired_collate_fn insts = Ok (s, a, c) /\
    shape1 c = NUM_COORDS_PER_RES * shape1 s /\
    Forall (fun r => len r = shape1 s) (t_rows s) /\
    Forall (fun r => len r = shape1 c) (t_rows c) /\
    forall k inst,
      nth_error insts k = Some inst ->
      exists crow,
        nth_error (t_rows c) k = Some crow /\
        length (rows_of crow) = NUM_COORDS_PER_RES * shape1 s /\
        forall i j,
          i < shape1 s -> j < NUM_COORDS_PER_RES ->
          nth_error (rows_of crow) (i * NUM_COORDS_PER_RES + j)
          = nth_error
              (rows_of (pad_to (max_len (map snd insts)) (snd inst)))
              (i * NUM_COORDS_PER_RES + j) /\
          nth_error (rows_of crow) (i * NUM_COORDS_PER_RES + j) <> None.
Proof.
  intros Hne Hws Hlen.
  pose proof (paired_collate_fn_eq Hne Hws) as E. cbv zeta in E.
  apply well_shaped3_split in Hws as (_ & _ & H3).
  set (seqs := map (fun i => fst (fst i)) insts) in *.
  set (crds := map snd insts) in *.
  set (N := NUM_COORDS_PER_RES) in *.
  assert (N1 : seqs <> []) by (subst seqs; destruct insts; simpl; congruence).
  assert (N3 : crds <> []) by (subst crds; destruct insts; simpl; congruence).
  assert (K1 : (0 <= MAX_SEQ_LEN)%Z) by (unfold MAX_SEQ_LEN; lia).
  assert (K3 : (0 <= MAX_SEQ_LEN * Z.of_nat N)%Z)
    by (unfold MAX_SEQ_LEN; lia).
  assert (Hmax : max_len crds = N * max_len seqs)
    by (apply max_len_coords, Hlen).
  do 3 eexists. split; [exact E|].
  rewrite (shape1_sliced _ K1 N1), (shape1_sliced _ K3 N3). cbn [t_rows].
  assert (W : Nat.min (Z.to_nat (MAX_SEQ_LEN * Z.of_nat N)) (max_len crds)
              = N * Nat.min (Z.to_nat MAX_SEQ_LEN) (max_len seqs)).
  { rewrite Hmax. unfold MAX_SEQ_LEN.
    destruct (Nat.min_spec (Z.to_nat 500) (max_len seqs)) as [[? ->]|[? ->]];
      nia. }
  split; [exact W|].
  split.
  { apply Forall_forall. intros r Hr.
    apply in_map_iff in Hr as [x [<- Hx]]. now apply sliced_row_len. }
  split.
  { apply Forall_forall. intros r Hr.
    apply in_map_iff in Hr as [x [<- Hx]]. now apply sliced_row_len. }
  intros k inst Hk.
  assert (Hin : In (snd inst) crds).
  { subst crds. apply in_map, (nth_error_In _ _ Hk). }
  exists (slice_arr (Some (MAX_SEQ_LEN * Z.of_nat N)%Z)
                    (pad_to (max_len crds) (snd inst))).
  split.
  { subst crds. rewrite nth_error_map, nth_error_map, Hk. reflexivity. }
  assert (Hrk : rank_ok false (snd inst) = true).
  { unfold well_shaped in H3. apply andb_prop in H3 as [H3 _].
    rewrite forallb_forall in H3. now apply H3. }
  assert (Hrows : length (rows_of
                            (slice_arr (Some (MAX_SEQ_LEN * Z.of_nat N)%Z)
                                       (pad_to (max_len crds) (snd inst))))
                  = N * Nat.min (Z.to_nat MAX_SEQ_LEN) (max_len seqs)).
  { rewrite len_rows_of.
    - rewrite (sliced_row_len _ _ K3 Hin). exact W.
    - destruct (snd inst); [discriminate Hrk | reflexivity]. }
  split; [exact Hrows|].
  intros i j Hi Hj.
  assert (Hidx : i * N + j < N * Nat.min (Z.to_nat MAX_SEQ_LEN) (max_len seqs))
    by nia.
  split.
  - rewrite rows_of_slice_arr. cbn [slice_upto].
    apply Z.leb_le in K3 as ->.
    rewrite nth_error_firstn.
    replace (i * N + j <? Z.to_nat (MAX_SEQ_LEN * Z.of_nat N)) with true;
      [reflexivity|].
    symmetry. apply Nat.ltb_lt. rewrite <- W in Hidx. lia.
  - apply nth_error_Some. rewrite Hrows. exact Hidx.
Qed.

End CollateTheory.

End CollateTheory.

(** ** Concrete batches *)

Module CollateExamples.

Import Collate CollateData CollateTheory.

Local Open Scope Z_scope.

(** Integer entries, [VOCAB.pad_id = 20], [NUM_COORDS_PER_RES = 14]. *)
Local Abbreviation collate_fn := (collate_fn 0 20 14).
Local Abbreviation paired_collate_fn := (paired_collate_fn 0 20 14).
Local Abbreviation pad_to := (pad_to 0 20).

Example collate_fn_two_seqs :
  collate_fn two_seqs false true None
  = Ok (Tensor Long [Arr1 [1; 2; 3]; Arr1 [4; 20; 20]]).
Proof. reflexivity. Qed.

Example collate_fn_coords_no_max :
  collate_fn [one_residue] true false None = Raise TypeError.
Proof. reflexivity. Qed.

Example collate_fn_wrong_rank :
  collate_fn two_seqs false false None = Raise ValueError.
Proof. reflexivity. Qed.

Lemma collate_fn_empty_raises_witness :
  collate_fn [] true false (Some 3) = Raise ValueError /\
  two_seqs <> [].
Proof.
  split.
  - apply (@collate_fn_empty_raises Z 0 20 14 true false (Some 3)).
  - apply (proj2 (@collate_fn_empty_raises Z 0 20 14 false true None)
                 two_seqs (Tensor Long [Arr1 [1; 2; 3]; Arr1 [4; 20; 20]])).
    reflexivity.
Defined.

(** C2, as stated, fails at a negative [max_seq_len]: the slice
    [batch[:, :-1]] drops the last column only, and the batch keeps two
    columns, which is more than [max_seq_len = -1]. *)
Lemma collate_fn_negative_max_seq_len :
  collate_fn [Arr1 [1; 2; 3]] false true (Some (-1))
  = Ok (Tensor Long [Arr1 [1; 2]]) /\
  ~ (Z.of_nat (shape1 (Tensor Long [Arr1 [1; 2]])) <= -1).
Proof. split; [reflexivity | simpl; lia]. Qed.

Lemma collate_fn_truncates_witness :
  (exists t,
      collate_fn two_seqs false true (Some 2) = Ok t /\
      Forall (fun r => Z.of_nat (len r) <= 2) (t_rows t)) /\
  (exists s a c,
      paired_collate_fn paired_batch = Ok (s, a, c) /\
      MAX_SEQ_LEN = 500 /\
      Forall (fun r => Z.of_nat (len r) <= 500) (t_rows s) /\
      Forall (fun r => Z.of_nat (len r) <= 500) (t_rows a) /\
      Forall (fun r => Z.of_nat (len r) <= 500 * Z.of_nat 14) (t_rows c)).
Proof.
  apply (@collate_fn_truncates Z 0 20 14 two_seqs false true 2 paired_batch).
  - discriminate.
  - reflexivity.
  - lia.
  - discriminate.
  - reflexivity.
Defined.

Lemma paired_collate_fn_residue_groups_witness :
  exists s a c,
    paired_collate_fn paired_batch = Ok (s, a, c) /\
    shape1 c = (14 * shape1 s)%nat /\
    Forall (fun r => len r = shape1 s) (t_rows s) /\
    Forall (fun r => len r = shape1 c) (t_rows c) /\
    forall k inst,
      nth_error paired_batch k = Some inst ->
      exists crow,
        nth_error (t_rows c) k = Some crow /\
        length (rows_of crow) = (14 * shape1 s)%nat /\
        forall i j,
          (i < shape1 s)%nat -> (j < 14)%nat ->
          nth_error (rows_of crow) (i * 14 + j)
          = nth_error
              (rows_of (pad_to (max_len (map snd paired_batch)) (snd inst)))
              (i * 14 + j) /\
          nth_error (rows_of crow) (i * 14 + j) <> None.
Proof.
  apply (@paired_collate_fn_residue_groups Z 0 20 14 paired_batch).
  - discriminate.
  - reflexivity.
  - repeat constructor.
Defined.

End CollateExamples.

(** * Properties of losses.py *)

Module LossesTheory.

Import Losses.

Local Open Scope R_scope.

(** ** Lists and loops *)

Lemma mapM_ok_map {T U : Type} (f : T -> result U) (g : T -> U) (l : list T) :
  (forall x, In x l -> f x = Ok (g x)) -> mapM f l = Ok (map g l).
Proof.
  induction l as [|x t IH]; intros H; simpl; [reflexivity|].
  rewrite (H x (or_introl eq_refl)). simpl.
  rewrite IH by (intros y Hy; apply H; now right). reflexivity.
Qed.

Lemma combine_fst_snd {X Y : Type} (l : list (X * Y)) :
  combine (map fst l) (map snd l) = l.
Proof.
  induction l as [|[x y] t IH]; simpl; [reflexivity | now rewrite IH].
Qed.

Lemma flat_map_after_map {X Y Z : Type} (f : X -> Y) (g : Y -> list Z)
      (l : list X) :
  flat_map g (map f l) = flat_map (fun x => g (f x)) l.
Proof.
  induction l as [|x t IH]; simpl; [reflexivity | now rewrite IH].
Qed.

Lemma map_after_flat_map {X Y Z : Type} (f : Y -> Z) (g : X -> list Y)
      (l : list X) :
  map f (flat_map g l) = flat_map (fun x => map f (g x)) l.
Proof.
  induction l as [|x t IH]; simpl; [reflexivity|].
  now rewrite map_app, IH.
Qed.

Lemma map_nth_seq {X : Type} (d : X) (l : list X) :
  map (fun j => nth j l d) (seq 0 (length l)) = l.
Proof.
  induction l as [|x t IH]; simpl; [reflexivity|].
  f_equal. rewrite <- seq_shift, map_map. exact IH.
Qed.

(** ** The strictly upper triangular indices *)

Lemma triu_pairs_S (m : nat) :
  triu_pairs (S m) (S m) 1
  = map (pair 0%nat) (seq 1 m) ++ map shift (triu_pairs m m 1).
Proof.
  unfold triu_pairs. cbn [seq flat_map]. f_equal.
  - simpl. now rewrite Nat.sub_0_r.
  - rewrite <- seq_shift, flat_map_after_map, map_after_flat_map.
    apply flat_map_ext. intros i.
    replace (S m - (S i + 1))%nat with (m - (i + 1))%nat by lia.
    replace (S i + 1)%nat with (S (i + 1)) by lia.
    rewrite <- seq_shift, !map_map. reflexivity.
Qed.

Lemma triu_pairs_in_range (n i j : nat) :
  In (i, j) (triu_pairs n n 1) -> (i < n)%nat /\ (j < n)%nat.
Proof.
  unfold triu_pairs. intros H.
  apply in_flat_map in H as [i' [Hi H]].
  apply in_map_iff in H as [j' [E Hj]]. injection E as -> ->.
  apply in_seq in Hi. apply in_seq in Hj. lia.
Qed.

Lemma triu_pairs_upper {X : Type} (d : X) (l : list X) :
  map (fun ij => (nth (fst ij) l d, nth (snd ij) l d))
      (triu_pairs (length l) (length l) 1)
  = upper_pairs l.
Proof.
  induction l as [|x t IH]; [reflexivity|].
  cbn [length upper_pairs]. rewrite triu_pairs_S, map_app. f_equal.
  - rewrite <- seq_shift, !map_map. cbn [fst snd nth].
    rewrite <- (map_nth_seq d t) at 2. now rewrite map_map.
  - rewrite map_map. exact IH.
Qed.

Lemma upper_pairs_map {X Y : Type} (g : X -> Y) (l : list X) :
  upper_pairs (map g l)
  = map (fun pq => (g (fst pq), g (snd pq))) (upper_pairs l).
Proof.
  induction l as [|x t IH]; simpl; [reflexivity|].
  now rewrite map_app, !map_map, IH.
Qed.

(** Gathering the strictly upper triangle of a table [f l_i l_j]. *)
Lemma index2_table {X : Type} (f : X -> X -> num) (l : list X) :
  let m := map (fun i => map (fun j => f i j) l) l in
  index2 m (fst (triu_indices (nrows m) (ncols m) 1))
         (snd (triu_indices (nrows m) (ncols m) 1))
  = Ok (map (fun pq => f (fst pq) (snd pq)) (upper_pairs l)).
Proof.
  destruct l as [|d t]; [reflexivity|].
  set (l := d :: t). intros m.
  assert (Hr : nrows m = length l) by (unfold nrows, m; apply length_map).
  assert (Hc : ncols m = length l) by (unfold ncols, m, l; simpl;
                                       now rewrite length_map).
  rewrite Hr, Hc. unfold triu_indices, index2. cbn [fst snd].
  rewrite combine_fst_snd.
  rewrite <- (triu_pairs_upper d l), map_map. cbn [fst snd].
  apply mapM_ok_map. intros [i j] Hij.
  apply triu_pairs_in_range in Hij as [Hi Hj]. cbn [fst snd].
  unfold m. rewrite nth_error_map.
  rewrite (nth_error_nth' l d Hi). cbn [option_map].
  rewrite nth_error_map, (nth_error_nth' l d Hj). reflexivity.
Qed.

(** ** Arithmetic on entries *)

Lemma clamp_eps_pos : 0 < clamp_eps.
Proof. unfold clamp_eps. lra. Qed.

Lemma fold_left_Rplus (l : list R) (a : R) :
  fold_left Rplus l a = a + rsum l.
Proof.
  revert a. induction l as [|x t IH]; intros a; simpl.
  - ring.
  - rewrite IH. unfold rsum. ring.
Qed.

Lemma fold_left_nadd_fin (l : list R) (a : R) :
  fold_left nadd (map Fin l) (Fin a) = Fin (fold_left Rplus l a).
Proof.
  revert a. induction l as [|x t IH]; intros a; simpl; [reflexivity|].
  apply IH.
Qed.

Lemma nsum_fin (l : list R) : nsum (map Fin l) = Fin (rsum l).
Proof.
  unfold nsum. rewrite fold_left_nadd_fin, fold_left_Rplus.
  f_equal. ring.
Qed.

Lemma nmean_fin (l : list R) :
  l <> [] -> nmean (map Fin l) = Fin (rsum l / INR (length l)).
Proof.
  intros Hne. unfold nmean. rewrite nsum_fin, length_map. simpl.
  destruct (Req_dec_T (INR (length l)) 0) as [E|_]; [|reflexivity].
  exfalso. destruct l; [congruence|].
  simpl length in E. rewrite S_INR in E.
  pose proof (pos_INR (length l)). lra.
Qed.

Lemma nsqrt_fin (r : R) : 0 <= r -> nsqrt (Fin r) = Fin (sqrt r).
Proof.
  intros H. simpl. destruct (Rlt_dec r 0); [lra | reflexivity].
Qed.

Lemma sq_sub_sym (x y : num) :
  nmul (nsub x y) (nsub x y) = nmul (nsub y x) (nsub y x).
Proof.
  destruct x, y; simpl; try reflexivity. f_equal. ring.
Qed.

Lemma combine_map_both {X Y X' Y' : Type} (f : X -> X') (g : Y -> Y')
      (l : list X) (l' : list Y) :
  combine (map f l) (map g l')
  = map (fun c => (f (fst c), g (snd c))) (combine l l').
Proof.
  revert l'. induction l as [|x t IH]; intros [|y t']; simpl;
    try reflexivity.
  now rewrite IH.
Qed.

Lemma mse_loss_fin (u v : list R) :
  mse_loss (map Fin u) (map Fin v)
  = nmean (map Fin (map (fun c => (fst c - snd c) * (fst c - snd c))
                        (combine u v))).
Proof.
  unfold mse_loss. f_equal. rewrite combine_map_both, !map_map.
  apply map_ext. intros [a b]. simpl. f_equal.
Qed.

(** ** The distance matrix *)

Lemma dist_nrows (x : matrix) : nrows (pairwise_internal_dist x) = length x.
Proof.
  unfold nrows, pairwise_internal_dist, x1_norm.
  now rewrite length_map, length_combine, length_map, Nat.min_id.
Qed.

Lemma dist_ncols (x : matrix) : ncols (pairwise_internal_dist x) = length x.
Proof.
  unfold ncols, pairwise_internal_dist, x1_norm.
  destruct x as [|r t]; [reflexivity|]. cbn [map combine length].
  f_equal. rewrite length_map, length_combine, length_map.
  apply Nat.min_id.
Qed.

Lemma gather_dist (x : matrix) (n : nat) :
  n = length x ->
  index2 (pairwise_internal_dist x) (fst (triu_indices n n 1))
         (snd (triu_indices n n 1))
  = Ok (map (fun pq => dist_entry (fst pq) (snd pq))
            (upper_pairs (combine x (x1_norm x)))).
Proof.
  intros ->.
  pose proof (index2_table dist_entry (combine x (x1_norm x))) as H.
  cbv zeta in H.
  change (map (fun i => map (fun j => dist_entry i j) (combine x (x1_norm x)))
              (combine x (x1_norm x)))
    with (pairwise_internal_dist x) in H.
  now rewrite dist_nrows, dist_ncols in H.
Qed.

(** [drmsd] on two tensors with the same number of points. *)
Lemma drmsd_eq (a b : matrix) :
  length a = length b ->
  drmsd a b
  = Ok (nsqrt
          (mse_loss
             (map (fun pq => dist_entry (fst pq) (snd pq))
                  (upper_pairs (combine a (x1_norm a))))
             (map (fun pq => dist_entry (fst pq) (snd pq))
                  (upper_pairs (combine b (x1_norm b)))))).
Proof.
  intros H. unfold drmsd. cbv zeta.
  rewrite dist_nrows, dist_ncols.
  rewrite (gather_dist a eq_refl). cbn [bind].
  rewrite (gather_dist b H). reflexivity.
Qed.

(** ** Tensors without NaN or infinity *)

Lemma x1_norm_lift (x : list (list R)) :
  x1_norm (lift x) = map (fun r => Fin (sumsq r)) x.
Proof.
  unfold x1_norm, lift. rewrite map_map. apply map_ext. intros r.
  unfold sumsq. rewrite <- nsum_fin, !map_map. reflexivity.
Qed.

Lemma dot_fin (p q : list R) : dot (map Fin p) (map Fin q) = Fin (dotR p q).
Proof.
  unfold dot, dotR. rewrite <- nsum_fin, combine_map_both, !map_map.
  reflexivity.
Qed.

Lemma combine_lift (x : list (list R)) :
  combine (lift x) (x1_norm (lift x))
  = map (fun r => (map Fin r, Fin (sumsq r))) x.
Proof.
  rewrite x1_norm_lift. unfold lift.
  induction x as [|r t IH]; simpl; [reflexivity | now rewrite IH].
Qed.

Lemma dist_entry_fin (p q : list R) :
  dist_entry (map Fin p, Fin (sumsq p)) (map Fin q, Fin (sumsq q))
  = Fin (gram_dist p q).
Proof.
  unfold dist_entry, gram_dist. cbn [fst snd]. rewrite dot_fin.
  cbn [nmul nadd clamp_min]. apply nsqrt_fin.
  pose proof clamp_eps_pos.
  pose proof (Rmax_r (sumsq q + -2 * dotR p q + sumsq p) clamp_eps). lra.
Qed.

Lemma gram_sq_dist (p q : list R) :
  length p = length q ->
  sumsq q + -2 * dotR p q + sumsq p = sq_dist p q.
Proof.
  unfold sumsq, dotR, sq_dist, rsum.
  revert q. induction p as [|x p IH]; intros [|y q] H; try discriminate H.
  - simpl. ring.
  - injection H as H. specialize (IH q H). simpl in *.
    rewrite <- IH. ring.
Qed.

Lemma gathered_lift (x : list (list R)) :
  map (fun pq => dist_entry (fst pq) (snd pq))
      (upper_pairs (combine (lift x) (x1_norm (lift x))))
  = map Fin (map (fun pq => gram_dist (fst pq) (snd pq)) (upper_pairs x)).
Proof.
  rewrite combine_lift, upper_pairs_map, !map_map. cbn [fst snd].
  apply map_ext. intros pq. apply dist_entry_fin.
Qed.

(** [drmsd] on real coordinates, with the distances of the code. *)
Lemma drmsd_lift (a b : list (list R)) :
  length a = length b ->
  drmsd (lift a) (lift b) = Ok (drmsd_of gram_dist a b).
Proof.
  intros H. rewrite drmsd_eq by (unfold lift; now rewrite !length_map).
  rewrite !gathered_lift, mse_loss_fin, combine_map_both, !map_map.
  reflexivity.
Qed.

Lemma drmsd_of_two (dist : list R -> list R -> R) (p0 p1 q0 q1 : list R) :
  drmsd_of dist [p0; p1] [q0; q1] = Fin (Rabs (dist p0 p1 - dist q0 q1)).
Proof.
  unfold drmsd_of. cbn [upper_pairs map app combine fst snd].
  set (e := dist p0 p1 - dist q0 q1).
  change [Fin (e * e)] with (map Fin [e * e]).
  rewrite nmean_fin by discriminate. cbn [rsum fold_right length INR].
  replace ((e * e + 0) / 1) with (Rsqr e) by (unfold Rsqr; field).
  rewrite nsqrt_fin by apply Rle_0_sqr.
  now rewrite sqrt_Rsqr_abs.
Qed.

Lemma combine_self {X : Type} (l : list X) :
  combine l l = map (fun x => (x, x)) l.
Proof.
  induction l as [|x t IH]; simpl; [reflexivity | now rewrite IH].
Qed.

(** ** Tiling and boolean masks *)

Lemma nth_error_concat_repeat {X : Type} (a : list X) (n t i : nat) :
  (t < n)%nat -> (i < length a)%nat ->
  nth_error (concat (repeat a n)) (length a * t + i) = nth_error a i.
Proof.
  revert t. induction n as [|n IH]; intros t Ht Hi; [lia|].
  cbn [repeat concat]. destruct t as [|t].
  - rewrite Nat.mul_0_r. now apply nth_error_app1.
  - rewrite nth_error_app2 by lia.
    replace (length a * S t + i - length a)%nat with (length a * t + i)%nat
      by lia.
    apply IH; lia.
Qed.

Lemma flat_map_ext_seq {Y : Type} (f g : nat -> list Y) (n : nat) :
  (forall i, (i < n)%nat -> f i = g i) ->
  flat_map f (seq 0 n) = flat_map g (seq 0 n).
Proof.
  intros H. rewrite !flat_map_concat_map. f_equal.
  apply map_ext_in. intros i Hi. apply in_seq in Hi. apply H. lia.
Qed.

Lemma map_const_seq {Y : Type} (c : Y) (start n : nat) :
  map (fun _ => c) (seq start n) = repeat c n.
Proof.
  revert start. induction n as [|n IH]; intros start; simpl;
    [reflexivity | now rewrite IH].
Qed.

(** [_tile] repeats every entry [n_tile] times, in place. *)
Lemma tile_repeat_each {X : Type} (a : list X) (n : nat) :
  a <> [] -> _tile a n = Ok (repeat_each n a).
Proof.
  intros Hne. destruct a as [|d t]; [congruence|].
  set (a := d :: t). unfold _tile.
  set (order := map (fun i => map (fun k => (length a * k + i)%nat) (seq 0 n))
                    (seq 0 (length a))).
  assert (E : np_concatenate order = Ok (concat order)) by reflexivity.
  rewrite E. cbn [bind]. unfold index_select.
  rewrite (mapM_ok_map _ (fun k => nth k (concat (repeat a n)) d)).
  - f_equal. unfold order. rewrite <- flat_map_concat_map, map_after_flat_map.
    unfold repeat_each.
    replace (flat_map (fun x => repeat x n) a)
      with (flat_map (fun x => repeat x n)
                     (map (fun j => nth j a d) (seq 0 (length a))))
      by (now rewrite map_nth_seq).
    rewrite flat_map_after_map.
    apply flat_map_ext_seq. intros i Hi.
    rewrite map_map, <- (map_const_seq (nth i a d) 0 n).
    apply map_ext_in. intros k Hk. apply in_seq in Hk.
    apply nth_error_nth.
    rewrite nth_error_concat_repeat by lia.
    now apply nth_error_nth'.
  - intros k Hk. unfold order in Hk.
    apply in_concat in Hk as [l [Hl Hk]].
    apply in_map_iff in Hl as [i [<- Hi]].
    apply in_map_iff in Hk as [j [<- Hj]].
    apply in_seq in Hi. apply in_seq in Hj.
    assert (Hsome : nth_error (concat (repeat a n)) (length a * j + i)
                    = nth_error a i)
      by (apply nth_error_concat_repeat; lia).
    destruct (nth_error (concat (repeat a n)) (length a * j + i)) as [v|] eqn:Ev.
    + f_equal. symmetry. now apply nth_error_nth.
    + symmetry in Hsome. apply nth_error_None in Hsome. lia.
Qed.

Lemma length_repeat_each {X : Type} (n : nat) (l : list X) :
  length (repeat_each n l) = (n * length l)%nat.
Proof.
  unfold repeat_each. induction l as [|x t IH]; simpl; [lia|].
  rewrite length_app, repeat_length, IH. lia.
Qed.

(** The number of [true] entries of a mask. *)
Lemma length_select {X : Type} (x : list X) (mask : list bool) :
  length x = length mask ->
  length (select x mask) = length (filter (fun b => b) mask).
Proof.
  revert mask. induction x as [|v x IH]; intros [|b mask] H;
    try discriminate H; [reflexivity|].
  injection H as H. simpl. destruct b; simpl; now rewrite IH.
Qed.

Lemma filter_repeat_each (n : nat) (mask : list bool) :
  length (filter (fun b => b) (repeat_each n mask))
  = (n * length (filter (fun b => b) mask))%nat.
Proof.
  unfold repeat_each. induction mask as [|b t IH]; simpl; [lia|].
  rewrite filter_app, length_app, IH.
  destruct b; simpl.
  - rewrite (proj2 (filter_ext_in_iff _ (fun _ => true) (repeat true n))).
    + rewrite filter_true, repeat_length. lia.
    + intros x Hx. now apply repeat_spec in Hx.
  - replace (filter (fun b => b) (repeat false n)) with (@nil bool); [simpl; lia|].
    clear. induction n; simpl; trivial.
Qed.

Lemma padding_is_dropped (s : list Z) :
  In PAD_TOKEN s ->
  (length (filter (fun b => b) (map (fun t => negb (Z.eqb t PAD_TOKEN)) s))
   < length s)%nat.
Proof.
  induction s as [|t s IH]; simpl; [tauto|].
  intros [->|H].
  - rewrite Z.eqb_refl. simpl.
    pose proof (filter_length_le (fun b => b)
                  (map (fun t => negb (Z.eqb t PAD_TOKEN)) s)) as Hle.
    rewrite length_map in Hle. lia.
  - specialize (IH H). destruct (negb (Z.eqb t PAD_TOKEN)); simpl; lia.
Qed.

Lemma bool_index_ok {X : Type} (x : list X) (mask : list bool) :
  length x = length mask -> bool_index x mask = Ok (select x mask).
Proof.
  intros H. unfold bool_index. now rewrite H, Nat.eqb_refl.
Qed.

Lemma bool_index_raises {X : Type} (x : list X) (mask : list bool) :
  length x <> length mask -> bool_index x mask = Raise IndexError.
Proof.
  intros H. unfold bool_index. apply Nat.eqb_neq in H. now rewrite H.
Qed.

Section BatchDrmsdTheory.

Variable NUM_COORDS_PER_RES : nat.

Local Abbreviation N := NUM_COORDS_PER_RES.

(** The mask that keeps the atoms of the residues that are not padding. *)
Local Abbreviation keep s :=
  (repeat_each N (map (fun t => negb (Z.eqb t PAD_TOKEN)) s)).

(** When the predicted tensor has one row per atom that is left of the
    true tensor after its padding is removed, the two tensors handed to
    [drmsd] are the true and the predicted rows of the atoms whose true
    coordinates are not all NaN. *)
Lemma mask_protein_unpadded_pred (pc tc : matrix) (s : list Z) :
  s <> [] ->
  length tc = (N * length s)%nat ->
  length pc = length (select tc (keep s)) ->
  let tc' := select tc (keep s) in
  let present := map negb (map (forallb isnan) tc') in
  mask_protein N pc tc s = Ok (select tc' present, select pc present).
Proof.
  intros Hne Htc Hpc tc' present. unfold mask_protein.
  rewrite tile_repeat_each
    by (destruct s; [congruence | discriminate]).
  cbn [bind].
  rewrite bool_index_ok
    by (now rewrite length_repeat_each, length_map).
  cbn [bind]. fold tc'. fold present.
  assert (Hp : length tc' = length present)
    by (unfold present; now rewrite !length_map).
  rewrite (bool_index_ok _ _ Hp). cbn [bind].
  rewrite bool_index_ok by (now rewrite Hpc).
  reflexivity.
Qed.

(** When the predicted tensor has the rows of the padded true tensor and
    the sequence holds a padding token, [pc[~missing_atoms]] raises: the
    mask was computed on the true tensor without its padding. *)
Lemma mask_protein_padded_pred (pc tc : matrix) (s : list Z) :
  (0 < N)%nat ->
  length tc = (N * length s)%nat ->
  length pc = length tc ->
  In PAD_TOKEN s ->
  mask_protein N pc tc s = Raise IndexError.
Proof.
  intros HN Htc Hpc Hpad. unfold mask_protein.
  rewrite tile_repeat_each
    by (destruct s; [destruct Hpad | discriminate]).
  cbn [bind].
  assert (Hk : length tc = length (keep s))
    by (now rewrite length_repeat_each, length_map).
  rewrite (bool_index_ok _ _ Hk). cbn [bind].
  set (tc' := select tc (keep s)).
  set (present := map negb (map (forallb isnan) tc')).
  assert (Hp : length tc' = length present)
    by (unfold present; now rewrite !length_map).
  rewrite (bool_index_ok _ _ Hp). cbn [bind].
  rewrite bool_index_raises; [reflexivity|].
  rewrite <- Hp. unfold tc'.
  rewrite (length_select _ _ Hk), filter_repeat_each, Hpc, Htc.
  pose proof (padding_is_dropped s Hpad). nia.
Qed.

(** C4 (the code departs from the claim).  On a batch whose first protein
    has padding in its sequence and whose predicted coordinates have the
    shape of the true coordinates, as the docstring says they have,
    [compute_batch_drmsd] raises [IndexError] and computes no DRMSD. *)
Theorem compute_batch_drmsd_padded_pred_raises
        (tc pc : matrix) (s : list Z)
        (tcs pcs : list matrix) (ss : list (list Z)) :
  (0 < N)%nat ->
  length tc = (N * length s)%nat ->
  length pc = length tc ->
  In PAD_TOKEN s ->
  compute_batch_drmsd N (tc :: tcs) (pc :: pcs) (s :: ss) = Raise IndexError.
Proof.
  intros HN Htc Hpc Hpad.
  unfold compute_batch_drmsd. cbn [combine batch_loop]. unfold batch_step.
  now rewrite (mask_protein_padded_pred pc tc s HN Htc Hpc Hpad).
Qed.

End BatchDrmsdTheory.

(** ** Angle losses *)

Lemma select_not_nan (t p : list num) :
  length p = length t ->
  combine (select p (map (fun x => negb (isnan x)) t))
          (select t (map (fun x => negb (isnan x)) t))
  = map (fun c => (snd c, fst c))
        (filter (fun c => negb (isnan (fst c))) (combine t p)).
Proof.
  revert p. induction t as [|x t IH]; intros [|y p] H; try discriminate H;
    [reflexivity|].
  injection H as H. cbn [map select combine filter fst].
  destruct (negb (isnan x)); cbn [combine map fst snd]; now rewrite IH.
Qed.

Lemma masked_same_shape (x : tensor) (mask : list bool) :
  length (data x) = length mask ->
  masked x (shape x) mask = Ok (select (data x) mask).
Proof.
  intros H. unfold masked.
  destruct (list_eq_dec Nat.eq_dec (shape x) (shape x)); [|congruence].
  now apply bool_index_ok.
Qed.

(** [angle_mse] on two tensors of one shape. *)
Lemma angle_mse_eq (true pred : tensor) :
  shape true = shape pred ->
  length (data true) = length (data pred) ->
  angle_mse true pred = Ok (mse_where_not_nan (data true) (data pred)).
Proof.
  intros Hs Hl. unfold angle_mse. rewrite Hs at 1.
  rewrite masked_same_shape by (now rewrite length_map).
  cbn [bind]. rewrite masked_same_shape by (now rewrite length_map).
  cbn [bind]. f_equal. unfold mse_loss, mse_where_not_nan.
  rewrite select_not_nan by congruence. now rewrite map_map.
Qed.

Lemma filter_not_nan_agree (t p p' : list num) :
  length p = length t ->
  length p' = length t ->
  (forall i x, nth_error t i = Some x -> isnan x = false ->
               nth_error p' i = nth_error p i) ->
  filter (fun c => negb (isnan (fst c))) (combine t p')
  = filter (fun c => negb (isnan (fst c))) (combine t p).
Proof.
  revert p p'. induction t as [|x t IH]; intros [|y p] [|y' p'] H H' Hagree;
    try discriminate; [reflexivity|].
  injection H as H. injection H' as H'.
  cbn [combine filter fst].
  rewrite (IH p p' H H') by (intros i; apply (Hagree (S i))).
  destruct (isnan x) eqn:E; cbn [negb]; [reflexivity|].
  specialize (Hagree 0%nat x eq_refl E). simpl in Hagree.
  now injection Hagree as ->.
Qed.

Lemma wf_same_length (a b : tensor) :
  wf a -> wf b -> shape a = shape b -> length (data a) = length (data b).
Proof. unfold wf. intros Ha Hb E. now rewrite Ha, Hb, E. Qed.

(** C6 (confirmed).  For two angle tensors of one shape, [angle_mse] is
    the mean squared error over the positions where [true] is not NaN;
    what [pred] holds at the NaN positions of [true] does not change the
    result. *)
Theorem angle_mse_over_non_nan (true pred pred' : tensor) :
  wf true -> wf pred -> wf pred' ->
  shape true = shape pred ->
  shape true = shape pred' ->
  (forall i x, nth_error (data true) i = Some x -> isnan x = false ->
               nth_error (data pred') i = nth_error (data pred) i) ->
  angle_mse true pred = Ok (mse_where_not_nan (data true) (data pred)) /\
  angle_mse true pred' = angle_mse true pred.
Proof.
  intros Wt Wp Wp' Hs Hs' Hagree.
  pose proof (wf_same_length Wt Wp Hs) as Hl.
  pose proof (wf_same_length Wt Wp' Hs') as Hl'.
  rewrite (angle_mse_eq _ _ Hs Hl), (angle_mse_eq _ _ Hs' Hl').
  split; [reflexivity|]. f_equal. unfold mse_where_not_nan.
  now rewrite (filter_not_nan_agree (data true) (data pred) (data pred')).
Qed.

Lemma wrap_twice (t p : num) :
  (fun e => if nlt e (Fin (- PI)) then nadd e (Fin (2 * PI)) else e)
    ((fun e => if ngt e (Fin PI) then nsub e (Fin (2 * PI)) else e)
       (nsub t p))
  = signed_diff t p.
Proof.
  unfold signed_diff. cbv beta zeta.
  destruct (ngt (nsub t p) (Fin PI)) eqn:E; [|reflexivity].
  pose proof PI_RGT_0 as Hpi.
  destruct (nsub t p) as [| | |r]; simpl in E; try discriminate E.
  - reflexivity.
  - unfold nlt. simpl.
    destruct (Rlt_dec PI r) as [Hr|]; [|discriminate E].
    destruct (Rlt_dec (r + - (2 * PI)) (- PI)); [lra | reflexivity].
Qed.

(** The entries of [angle_diff]. *)
Lemma angle_diff_data (true pred : tensor) :
  data (angle_diff true pred)
  = map (fun c => signed_diff (fst c) (snd c))
        (combine (data true) (data pred)).
Proof.
  unfold angle_diff, update_where, tsub. cbn [data].
  rewrite !map_map. apply map_ext. intros [t p]. apply wrap_twice.
Qed.

Lemma nadd_zero_r (x : num) : nadd x (Fin 0) = x.
Proof. destruct x; simpl; trivial. f_equal. ring. Qed.

Lemma fold_nan_as_zero (l : list num) (acc : num) :
  fold_left nadd (map (fun x => if isnan x then Fin 0 else x) l) acc
  = fold_left nadd (filter (fun x => negb (isnan x)) l) acc.
Proof.
  revert acc. induction l as [|x t IH]; intros acc; simpl; [reflexivity|].
  destruct (isnan x); simpl; rewrite IH; [now rewrite nadd_zero_r|].
  reflexivity.
Qed.

Lemma nansum_filter (l : list num) :
  nansum l = nsum (filter (fun x => negb (isnan x)) l).
Proof. apply fold_nan_as_zero. Qed.

Lemma nanmean_filter (l : list num) :
  nanmean l = nmean (filter (fun x => negb (isnan x)) l).
Proof. unfold nanmean, nmean. now rewrite nansum_filter. Qed.

Lemma filter_not_nan_abs (l : list num) :
  filter (fun x => negb (isnan x)) (map nabs l)
  = map nabs (filter (fun x => negb (isnan x)) l).
Proof.
  induction l as [|x t IH]; simpl; [reflexivity|].
  rewrite IH. now destruct x.
Qed.

Lemma nth_error_combine {X Y : Type} (l : list X) (l' : list Y) (i : nat)
      (x : X) (y : Y) :
  nth_error l i = Some x -> nth_error l' i = Some y ->
  nth_error (combine l l') i = Some (x, y).
Proof.
  revert l l'. induction i as [|i IH]; intros [|a l] [|b l'] Hx Hy;
    try discriminate.
  - simpl in *. congruence.
  - simpl in *. now apply IH.
Qed.

Lemma signed_diff_angle (t p : R) :
  - PI <= t <= PI -> - PI <= p <= PI ->
  exists (e : R) (k : Z),
    signed_diff (Fin t) (Fin p) = Fin e /\
    - PI <= e <= PI /\
    e = t - p + 2 * PI * IZR k.
Proof.
  intros Ht Hp. unfold signed_diff, nlt. cbn [nsub nneg nadd ngt].
  pose proof PI_RGT_0 as Hpi.
  destruct (Rlt_dec PI (t + - p)) as [H1|H1].
  - exists (t + - p + - (2 * PI)), (-1)%Z. repeat split; lra.
  - destruct (Rlt_dec (t + - p) (- PI)) as [H2|H2].
    + exists (t + - p + 2 * PI), 1%Z. repeat split; lra.
    + exists (t + - p), 0%Z. repeat split; lra.
Qed.

Lemma signed_diff_angle_or_nan (t p : num) :
  angle_or_nan t -> angle_or_nan p -> angle_or_nan (signed_diff t p).
Proof.
  intros Ht Hp.
  destruct t as [| | |t]; try contradiction; [exact I|].
  destruct p as [| | |p]; try contradiction; [exact I|].
  destruct (signed_diff_angle Ht Hp) as (e & k & -> & He & _). exact He.
Qed.

(** C7 (confirmed).  [angle_mae] is the mean, over the entries where the
    wrapped difference is not NaN, of the absolute value of the signed
    difference of [angle_diff]: [true - pred], moved by [2 pi] once when
    it is outside [[-pi, pi]], which puts it in [[-pi, pi]] when the
    entries of the two tensors are angles in [[-pi, pi]] or NaN. *)
Theorem angle_mae_mean_abs (true pred : tensor) :
  angle_mae true pred = mean_abs_not_nan (data (angle_diff true pred)) /\
  data (angle_diff true pred)
  = map (fun c => signed_diff (fst c) (snd c))
        (combine (data true) (data pred)) /\
  (Forall angle_or_nan (data true) ->
   Forall angle_or_nan (data pred) ->
   Forall angle_or_nan (data (angle_diff true pred))).
Proof.
  split; [|split; [apply angle_diff_data|]].
  - unfold angle_mae, mean_abs_not_nan.
    now rewrite nanmean_filter, filter_not_nan_abs.
  - intros Ht Hp. rewrite angle_diff_data.
    apply Forall_forall. intros x Hx.
    apply in_map_iff in Hx as [[t p] [<- Hc]]. cbn [fst snd].
    rewrite Forall_forall in Ht, Hp.
    apply signed_diff_angle_or_nan.
    + apply Ht, (in_combine_l _ _ _ _ Hc).
    + apply Hp, (in_combine_r _ _ _ _ Hc).
Qed.

(** C9 (confirmed).  For two tensors of one shape whose entries are
    angles in [[-pi, pi]], [angle_diff] has the shape and the number of
    entries of its arguments, and each of its entries lies in
    [[-pi, pi]] and differs from [true - pred] by a multiple of [2 pi]. *)
Theorem angle_diff_wraps (true pred : tensor) :
  shape true = shape pred ->
  length (data true) = length (data pred) ->
  Forall is_angle (data true) ->
  Forall is_angle (data pred) ->
  shape (angle_diff true pred) = shape true /\
  length (data (angle_diff true pred)) = length (data true) /\
  Forall is_angle (data (angle_diff true pred)) /\
  forall i t p,
    nth_error (data true) i = Some (Fin t) ->
    nth_error (data pred) i = Some (Fin p) ->
    exists (e : R) (k : Z),
      nth_error (data (angle_diff true pred)) i = Some (Fin e) /\
      - PI <= e <= PI /\
      e = t - p + 2 * PI * IZR k.
Proof.
  intros Hs Hl Ht Hp. split; [reflexivity|].
  rewrite angle_diff_data. split.
  { rewrite length_map, length_combine, <- Hl. apply Nat.min_id. }
  split.
  - apply Forall_forall. intros x Hx.
    apply in_map_iff in Hx as [[t p] [<- Hc]]. cbn [fst snd].
    rewrite Forall_forall in Ht, Hp.
    pose proof (Ht _ (in_combine_l _ _ _ _ Hc)) as At.
    pose proof (Hp _ (in_combine_r _ _ _ _ Hc)) as Ap.
    destruct t as [| | |t]; try contradiction.
    destruct p as [| | |p]; try contradiction.
    destruct (signed_diff_angle At Ap) as (e & k & -> & He & _). exact He.
  - intros i t p Hti Hpi.
    rewrite Forall_forall in Ht, Hp.
    pose proof (Ht _ (nth_error_In _ _ Hti)) as At.
    pose proof (Hp _ (nth_error_In _ _ Hpi)) as Ap.
    destruct (signed_diff_angle At Ap) as (e & k & E & He & Hk).
    exists e, k. split; [|split; assumption].
    rewrite nth_error_map, (nth_error_combine _ _ _ Hti Hpi).
    cbn [option_map fst snd]. now rewrite E.
Qed.

End LossesTheory.

(** ** Concrete tensors *)

Module LossesExamples.

Import Losses LossesData LossesTheory.

Local Open Scope R_scope.

Example tile_mask :
  _tile [true; false] 3 = Ok [true; true; true; false; false; false].
Proof. reflexivity. Qed.

Example tile_no_residue : _tile (@nil bool) 3 = Raise ValueError.
Proof. reflexivity. Qed.

Example triu_indices_3 :
  triu_indices 3 3 1 = ([0; 0; 1]%nat, [1; 2; 2]%nat).
Proof. reflexivity. Qed.

Example mask_of_wrong_length :
  bool_index [1; 2; 3]%nat [true; false] = Raise IndexError.
Proof. reflexivity. Qed.

Example signed_diff_full_turn : signed_diff (Fin PI) (Fin (- PI)) = Fin 0.
Proof.
  pose proof PI_RGT_0. unfold signed_diff. simpl.
  destruct (Rlt_dec PI (PI + - - PI)); [f_equal; lra | lra].
Qed.

Lemma gram_dist_two_points : gram_dist [0; 0; 0] [1; 0; 0] = 1.
Proof.
  unfold gram_dist, sumsq, dotR, rsum, clamp_eps. simpl.
  rewrite Rmax_left by lra.
  match goal with
  | |- sqrt ?x = _ => replace x with (1 * 1) by lra
  end.
  apply sqrt_square. lra.
Qed.

Lemma gram_dist_short_pred : gram_dist [0; 0; 0] [3; 0; 0] = 3.
Proof.
  unfold gram_dist, sumsq, dotR, rsum, clamp_eps. simpl.
  rewrite Rmax_left by lra.
  match goal with
  | |- sqrt ?x = _ => replace x with (3 * 3) by lra
  end.
  apply sqrt_square. lra.
Qed.

(** A protein without padding: the distances are 1 and 3, the DRMSD is 2,
    and it is divided by the two residues. *)
Example compute_batch_drmsd_unpadded :
  compute_batch_drmsd 1 [lift two_points] [lift short_pred] [short_seq]
  = Ok (Fin 1).
Proof.
  unfold compute_batch_drmsd. cbn [combine batch_loop]. unfold batch_step.
  rewrite mask_protein_unpadded_pred by (reflexivity || discriminate).
  cbn [bind].
  change (drmsd _ _) with (drmsd (lift two_points) (lift short_pred)).
  rewrite drmsd_lift by reflexivity. cbn [bind].
  unfold two_points, short_pred.
  rewrite drmsd_of_two, gram_dist_two_points, gram_dist_short_pred.
  simpl. destruct (Req_dec_T (1 + 1) 0); [lra|].
  do 2 f_equal. rewrite Rabs_left by lra. lra.
Qed.







Lemma compute_batch_drmsd_padded_pred_raises_witness :
  compute_batch_drmsd 14 [padded_true] [padded_pred] [padded_seq]
  = Raise IndexError.
Proof.
  apply (@compute_batch_drmsd_padded_pred_raises 14 padded_true padded_pred
           padded_seq [] [] []).
  - lia.
  - reflexivity.
  - reflexivity.
  - right. left. reflexivity.
Defined.

Lemma angle_mse_over_non_nan_witness :
  angle_mse true_angles pred_angles
  = Ok (mse_where_not_nan (data true_angles) (data pred_angles)) /\
  angle_mse true_angles pred_angles' = angle_mse true_angles pred_angles.
Proof.
  apply (@angle_mse_over_non_nan true_angles pred_angles pred_angles');
    try reflexivity.
  intros [|[|[|[|i]]]] x; simpl; intros Hx Hn; try reflexivity;
    try discriminate Hx; injection Hx as <-; discriminate Hn.
Defined.

Example angle_mse_value :
  angle_mse true_angles pred_angles = Ok (Fin 2).
Proof.
  rewrite angle_mse_eq by reflexivity.
  unfold mse_where_not_nan. simpl filter. simpl map.
  change [Fin ((3 + - (1)) * (3 + - (1))); Fin ((0 + - 0) * (0 + - 0))]
    with (map Fin [(3 + - (1)) * (3 + - (1)); (0 + - 0) * (0 + - 0)]).
  rewrite nmean_fin by discriminate. do 2 f_equal. simpl. lra.
Qed.

Lemma angle_mae_mean_abs_witness :
  angle_mae true_angles pred_angles
  = mean_abs_not_nan (data (angle_diff true_angles pred_angles)) /\
  data (angle_diff half_turns back_turns)
  = map (fun c => signed_diff (fst c) (snd c))
        (combine (data half_turns) (data back_turns)) /\
  Forall angle_or_nan (data (angle_diff half_turns back_turns)).
Proof.
  pose proof PI_RGT_0 as Hpi.
  split; [apply (angle_mae_mean_abs true_angles pred_angles)|].
  split; [apply (angle_mae_mean_abs half_turns back_turns)|].
  apply (angle_mae_mean_abs half_turns back_turns);
    repeat constructor; simpl; lra.
Defined.

Lemma angle_diff_wraps_witness :
  shape (angle_diff half_turns back_turns) = shape half_turns /\
  length (data (angle_diff half_turns back_turns))
  = length (data half_turns) /\
  Forall is_angle (data (angle_diff half_turns back_turns)) /\
  forall i t p,
    nth_error (data half_turns) i = Some (Fin t) ->
    nth_error (data back_turns) i = Some (Fin p) ->
    exists (e : R) (k : Z),
      nth_error (data (angle_diff half_turns back_turns)) i = Some (Fin e) /\
      - PI <= e <= PI /\
      e = t - p + 2 * PI * IZR k.
Proof.
  pose proof PI_RGT_0 as Hpi.
  apply (@angle_diff_wraps half_turns back_turns).
  - reflexivity.
  - reflexivity.
  - repeat constructor; simpl; lra.
  - repeat constructor; simpl; lra.
Defined.

End LossesExamples.

(** * Further properties of collate.py *)

Module CollateFacts.

Import Collate CollateMore CollateTheory.

Lemma mapM_pad_raises {A : Type} (zero pad_id : A) (sequences : bool)
      (n : nat) (insts : list (ndarray A)) :
  forallb (rank_ok sequences) insts = false ->
  mapM (fun inst => concatenate inst (pad_block zero pad_id sequences n inst))
       insts
  = Raise ValueError.
Proof.
  induction insts as [|a t IH]; simpl; [discriminate|].
  intros H. destruct (rank_ok sequences a) eqn:Ha.
  - rewrite (concatenate_pad_block zero pad_id _ n _ Ha).
    simpl in H. cbn [bind]. now rewrite (IH H).
  - destruct a, sequences; simpl in Ha; try discriminate Ha; reflexivity.
Qed.

Lemma np_array_ragged {A : Type} (zero pad_id : A) (n : nat)
      (a : ndarray A) (t : list (ndarray A)) :
  forallb (inner_shape_eqb a) t = false ->
  np_array (map (pad_to zero pad_id n) (a :: t)) = Raise ValueError.
Proof.
  intros H. cbn [map np_array].
  replace (forallb _ (map (pad_to zero pad_id n) t)) with false;
    [reflexivity|].
  symmetry. apply not_true_is_false. intros E.
  rewrite forallb_forall in E.
  assert (F : forallb (inner_shape_eqb a) t = true).
  { apply forallb_forall. intros b Hb.
    specialize (E _ (in_map _ _ _ Hb)).
    apply andb_prop in E as [E _]. now rewrite inner_shape_pad_to in E. }
  congruence.
Qed.

Section CollateFacts.

Variable A : Type.
Variable zero : A.
Variable pad_id : A.
Variable NUM_COORDS_PER_RES : nat.

Local Abbreviation ndarray := (ndarray A).
Local Abbreviation pad_to := (pad_to zero pad_id).
Local Abbreviation collate_fn := (collate_fn zero pad_id NUM_COORDS_PER_RES).
Local Abbreviation paired_collate_fn :=
  (paired_collate_fn zero pad_id NUM_COORDS_PER_RES).
Local Abbreviation trim_stop := (trim_stop NUM_COORDS_PER_RES).

(** The three outcomes of [collate_fn]. *)
Lemma collate_fn_cases (insts : list ndarray) (coords sequences : bool)
      (max_seq_len : option Z) :
  ((insts = [] \/ well_shaped sequences insts = false) /\
   collate_fn insts coords sequences max_seq_len = Raise ValueError) \/
  (insts <> [] /\ well_shaped sequences insts = true /\
   coords = true /\ max_seq_len = None /\
   collate_fn insts coords sequences max_seq_len = Raise TypeError) \/
  (insts <> [] /\ well_shaped sequences insts = true /\
   exists stop,
     trim_stop coords max_seq_len = Ok stop /\
     collate_fn insts coords sequences max_seq_len
     = Ok (Tensor (if sequences then Long else Float)
                  (map (fun inst =>
                          slice_arr stop (pad_to (max_len insts) inst))
                       insts))).
Proof.
  destruct insts as [|a t] eqn:E; [left; split; [now left | reflexivity]|].
  rewrite <- E. assert (Hne : insts <> []) by (rewrite E; discriminate).
  destruct (well_shaped sequences insts) eqn:Hws.
  - right. destruct (trim_stop coords max_seq_len) as [stop|e] eqn:Hs.
    + right. repeat split; trivial. exists stop. split; [reflexivity|].
      now apply collate_fn_eq.
    + left. unfold Collate.trim_stop in Hs.
      destruct coords; [|discriminate Hs].
      destruct max_seq_len; [discriminate Hs|].
      repeat split; trivial.
      unfold Collate.collate_fn. rewrite (py_max_len Hne). cbn [bind].
      assert (Hr : forallb (rank_ok sequences) insts = true).
      { unfold well_shaped in Hws. now apply andb_prop in Hws as [? _]. }
      rewrite (mapM_pad zero pad_id _ _ _ Hr). cbn [bind].
      rewrite (np_array_padded zero pad_id _ _ Hws). reflexivity.
  - left. split; [now right|].
    unfold Collate.collate_fn. rewrite (py_max_len Hne). cbn [bind].
    destruct (forallb (rank_ok sequences) insts) eqn:Hr.
    + rewrite (mapM_pad zero pad_id _ _ _ Hr). cbn [bind].
      unfold well_shaped in Hws. rewrite Hr in Hws. simpl in Hws.
      rewrite E in *. now rewrite (np_array_ragged zero pad_id _ _ _ Hws).
    + now rewrite (mapM_pad_raises zero pad_id _ _ _ Hr).
Qed.

(** [collate_fn] raises [ValueError] exactly when the list of instances
    is empty or ill shaped (an instance of the wrong rank for the flag
    [sequences], or rank 2 instances of different widths). *)
Theorem collate_fn_value_error (insts : list ndarray) (coords sequences : bool)
        (max_seq_len : option Z) :
  collate_fn insts coords sequences max_seq_len = Raise ValueError <->
  insts = [] \/ well_shaped sequences insts = false.
Proof.
  destruct (collate_fn_cases insts coords sequences max_seq_len)
    as [[H E]|[(Hne & Hws & _ & _ & E)|(Hne & Hws & stop & _ & E)]];
    rewrite E; split; trivial; try discriminate.
  - intros [->|H]; congruence.
  - intros [->|H]; congruence.
Qed.

(** [collate_fn] raises [TypeError] exactly when the instances are well
    shaped, [coords] is set and [max_seq_len] is left at [None]; it raises
    no other exception. *)
Theorem collate_fn_type_error (insts : list ndarray) (coords sequences : bool)
        (max_seq_len : option Z) :
  (collate_fn insts coords sequences max_seq_len = Raise TypeError <->
   insts <> [] /\ well_shaped sequences insts = true /\
   coords = true /\ max_seq_len = None) /\
  collate_fn insts coords sequences max_seq_len <> Raise IndexError /\
  collate_fn insts coords sequences max_seq_len <> Raise ZeroDivisionError.
Proof.
  destruct (collate_fn_cases insts coords sequences max_seq_len)
    as [[H E]|[(Hne & Hws & Hc & Hm & E)|(Hne & Hws & stop & Hs & E)]];
    rewrite E; repeat split; trivial; try discriminate.
  - intros (Hne & Hws & _). destruct H; congruence.
  - intros (_ & _ & -> & ->). discriminate Hs.
Qed.

Lemma length_slice_upto {X : Type} (stop : option Z) (l : list X) :
  length (slice_upto stop l) = slice_len stop (length l).
Proof.
  destruct stop as [k|]; simpl; [|reflexivity].
  destruct (0 <=? k)%Z eqn:E; rewrite length_firstn; [reflexivity|].
  apply Z.leb_gt in E. lia.
Qed.

Lemma len_slice_arr_len (stop : option Z) (a : ndarray) :
  len (slice_arr stop a) = slice_len stop (len a).
Proof. destruct a; simpl; apply length_slice_upto. Qed.

Lemma pad_to_full (n : nat) (a : ndarray) : len a = n -> pad_to n a = a.
Proof.
  destruct a; simpl; intros <-; rewrite Nat.sub_diag; simpl;
    now rewrite app_nil_r.
Qed.

Lemma max_len_const (n : nat) (insts : list ndarray) :
  insts <> [] -> (forall a, In a insts -> len a = n) -> max_len insts = n.
Proof.
  unfold max_len. induction insts as [|a t IH]; [congruence|].
  intros _ H. simpl. rewrite (H a (or_introl eq_refl)).
  destruct t as [|b t']; [simpl; lia|].
  rewrite IH; [lia | discriminate | intros; apply H; now right].
Qed.

(** The shape of the batch: one row per instance, in order, and
    [max_batch_len] columns cut by the Python slice: all of them for
    [None], at most [k] of them for [k >= 0], all but the last [-k] for
    [k < 0]. *)
Theorem collate_fn_shape (insts : list ndarray) (coords sequences : bool)
        (max_seq_len stop : option Z) :
  insts <> [] ->
  well_shaped sequences insts = true ->
  trim_stop coords max_seq_len = Ok stop ->
  exists t,
    collate_fn insts coords sequences max_seq_len = Ok t /\
    length (t_rows t) = length insts /\
    Forall (fun r => len r = slice_len stop (max_len insts)) (t_rows t).
Proof.
  intros Hne Hws Hs. eexists.
  split; [eapply collate_fn_eq; eassumption|].
  cbn [t_rows]. split; [apply length_map|].
  apply Forall_forall. intros r Hr.
  apply in_map_iff in Hr as [a [<- Ha]].
  rewrite len_slice_arr_len.
  now rewrite (len_pad_to zero pad_id) by (apply len_le_max_len, Ha).
Qed.

(** [paired_collate_fn] raises [ValueError] exactly when the batch is
    empty or one of its three instance lists is ill shaped; otherwise it
    returns a [LongTensor] and two [FloatTensor]s with one row per
    instance (it never meets the [TypeError] of [collate_fn]). *)
Theorem paired_collate_fn_outcome
        (insts : list (ndarray * ndarray * ndarray)) :
  (paired_collate_fn insts = Raise ValueError <->
   insts = [] \/ well_shaped3 insts = false) /\
  ((exists s a c,
       paired_collate_fn insts = Ok (s, a, c) /\
       t_dtype s = Long /\ t_dtype a = Float /\ t_dtype c = Float /\
       length (t_rows s) = length insts /\
       length (t_rows a) = length insts /\
       length (t_rows c) = length insts) <->
   insts <> [] /\ well_shaped3 insts = true).
Proof.
  destruct insts as [|i t] eqn:E.
  { split; split; try (intros; now left); try reflexivity.
    - intros (s & a & c & H & _). discriminate H.
    - intros [H _]. congruence. }
  rewrite <- E. assert (Hne : insts <> []) by (rewrite E; discriminate).
  destruct (well_shaped3 insts) eqn:Hws.
  - pose proof (paired_collate_fn_eq zero pad_id NUM_COORDS_PER_RES Hne Hws)
      as H.
    cbv zeta in H. rewrite H. split; split; try discriminate.
    + intros [?|?]; congruence.
    + intros _. now split.
    + intros _. do 3 eexists. split; [reflexivity|].
      cbn [t_dtype t_rows]. rewrite !length_map. repeat split.
  - assert (R : paired_collate_fn insts = Raise ValueError).
    { unfold Collate.paired_collate_fn.
      assert (U : unzip3 insts
                  = Ok (map (fun i => fst (fst i)) insts,
                        map (fun i => snd (fst i)) insts, map snd insts))
        by (rewrite E; reflexivity).
      rewrite U. cbn [bind].
      unfold well_shaped3 in Hws.
      destruct (collate_fn_cases (map (fun i => fst (fst i)) insts)
                                 false true (Some MAX_SEQ_LEN))
        as [[_ E1]|[(_ & _ & C & _)|(_ & W1 & stop1 & _ & E1)]];
        [now rewrite E1 | discriminate C |].
      rewrite E1, W1 in *. cbn [bind].
      destruct (collate_fn_cases (map (fun i => snd (fst i)) insts)
                                 false false (Some MAX_SEQ_LEN))
        as [[_ E2]|[(_ & _ & C & _)|(_ & W2 & stop2 & _ & E2)]];
        [now rewrite E2 | discriminate C |].
      rewrite E2, W2 in *. cbn [bind].
      destruct (collate_fn_cases (map snd insts) true false
                                 (Some MAX_SEQ_LEN))
        as [[_ E3]|[(_ & _ & _ & C & _)|(_ & W3 & _)]];
        [now rewrite E3 | discriminate C |].
      rewrite W3 in Hws. discriminate Hws. }
    rewrite R. split; split; trivial; try discriminate.
    + intros _. now right.
    + intros (s & a & c & H & _). discriminate H.
    + intros [_ H]. discriminate H.
Qed.

End CollateFacts.

End CollateFacts.

(** * Further properties of losses.py *)

Module LossesFacts.

Import Losses LossesMore LossesTheory.

Local Open Scope R_scope.

(** ** [_tile] *)

Lemma repeat_each_cons {X : Type} (n : nat) (x : X) (l : list X) :
  repeat_each n (x :: l) = repeat x n ++ repeat_each n l.
Proof. reflexivity. Qed.

Lemma nth_error_repeat_each {X : Type} (n : nat) (l : list X) (k : nat) :
  (k < n * length l)%nat ->
  nth_error (repeat_each n l) k = nth_error l (k / n).
Proof.
  revert k. induction l as [|x t IH]; intros k Hk; [simpl in Hk; lia|].
  assert (Hn : n <> 0%nat) by (intros ->; simpl in Hk; lia).
  rewrite repeat_each_cons.
  destruct (Nat.lt_ge_cases k n) as [Hlt|Hge].
  - rewrite nth_error_app1 by (now rewrite repeat_length).
    rewrite nth_error_repeat by assumption.
    now rewrite Nat.div_small.
  - rewrite nth_error_app2 by (now rewrite repeat_length).
    rewrite repeat_length, IH by (simpl in Hk; lia).
    replace k with (k - n + 1 * n)%nat at 2 by lia.
    rewrite Nat.div_add by assumption.
    now rewrite Nat.add_1_r.
Qed.

(** [_tile(a, 0, n)] raises [ValueError] on an empty tensor
    ([np.concatenate] of no array); on a tensor of [L > 0] entries it
    returns [n * L] entries, entry [k] being entry [k // n] of [a]: every
    entry is repeated [n] times in place. *)
Theorem tile_entries {X : Type} (a : list X) (n : nat) :
  (a = [] /\ _tile a n = Raise ValueError) \/
  (a <> [] /\
   exists r,
     _tile a n = Ok r /\
     length r = (n * length a)%nat /\
     forall k, (k < n * length a)%nat ->
               nth_error r k = nth_error a (k / n)).
Proof.
  destruct a as [|x t]; [left; now split|].
  right. split; [discriminate|].
  exists (repeat_each n (x :: t)).
  split; [apply tile_repeat_each; discriminate|].
  split; [apply length_repeat_each|].
  intros k Hk. now apply nth_error_repeat_each.
Qed.

(** ** The distance matrix *)

Lemma combine_map_self {X Y : Type} (f : X -> Y) (l : list X) :
  combine l (map f l) = map (fun x => (x, f x)) l.
Proof.
  induction l as [|x t IH]; simpl; [reflexivity | now rewrite IH].
Qed.

Lemma dist_table (x : matrix) :
  pairwise_internal_dist x
  = map (fun ri => map (fun rj => dist_entry (ri, row_norm ri)
                                             (rj, row_norm rj)) x) x.
Proof.
  unfold pairwise_internal_dist, x1_norm.
  change (fun row => nsum (map (fun v => nmul v v) row)) with row_norm.
  rewrite combine_map_self, !map_map. apply map_ext. intros ri.
  rewrite map_map. reflexivity.
Qed.

(** The entry in row [i] and column [j]. *)
Lemma dist_entry_at (x : matrix) (i j : nat) (ri rj : list num) :
  nth_error x i = Some ri ->
  nth_error x j = Some rj ->
  exists r,
    nth_error (pairwise_internal_dist x) i = Some r /\
    nth_error r j = Some (dist_entry (ri, row_norm ri) (rj, row_norm rj)).
Proof.
  intros Hi Hj. rewrite dist_table. eexists.
  rewrite nth_error_map, Hi. split; [reflexivity|].
  now rewrite nth_error_map, Hj.
Qed.

Lemma dist_row_length (x : matrix) :
  Forall (fun row => length row = length x) (pairwise_internal_dist x).
Proof.
  rewrite dist_table. apply Forall_forall. intros row Hrow.
  apply in_map_iff in Hrow as [ri [<- _]]. apply length_map.
Qed.

(** [pairwise_internal_dist] of [L] points is an [L] x [L] matrix. *)
Theorem pairwise_internal_dist_square (x : matrix) :
  nrows (pairwise_internal_dist x) = length x /\
  ncols (pairwise_internal_dist x) = length x /\
  Forall (fun row => length row = length x) (pairwise_internal_dist x).
Proof.
  split; [apply dist_nrows|]. split; [apply dist_ncols|].
  apply dist_row_length.
Qed.

Lemma nadd_nan_r (x : num) : nadd x NaN = NaN.
Proof. now destruct x. Qed.

Lemma fold_nadd_nan (l : list num) : fold_left nadd l NaN = NaN.
Proof. induction l as [|x t IH]; simpl; trivial. Qed.

Lemma nsum_nan (l : list num) : In NaN l -> nsum l = NaN.
Proof.
  unfold nsum. generalize (Fin 0).
  induction l as [|x t IH]; intros acc H; [destruct H|].
  simpl. destruct H as [->|H].
  - rewrite nadd_nan_r. apply fold_nadd_nan.
  - now apply IH.
Qed.

Lemma row_norm_nan (row : list num) : In NaN row -> row_norm row = NaN.
Proof.
  intros H. unfold row_norm. apply nsum_nan.
  change NaN with ((fun v => nmul v v) NaN). now apply in_map.
Qed.

(** A NaN coordinate in point [i] makes the whole row [i] and the whole
    column [i] of the distance matrix NaN. *)
Theorem pairwise_internal_dist_nan (x : matrix) (i j : nat)
        (ri : list num) :
  nth_error x i = Some ri ->
  In NaN ri ->
  (j < length x)%nat ->
  (exists r, nth_error (pairwise_internal_dist x) i = Some r /\
             nth_error r j = Some NaN) /\
  (exists r, nth_error (pairwise_internal_dist x) j = Some r /\
             nth_error r i = Some NaN).
Proof.
  intros Hi Hnan Hj.
  destruct (nth_error x j) as [rj|] eqn:Ej;
    [|apply nth_error_None in Ej; lia].
  pose proof (row_norm_nan _ Hnan) as Hn.
  split.
  - destruct (dist_entry_at _ _ _ Hi Ej) as (r & Hr & He).
    exists r. split; [exact Hr|]. rewrite He. f_equal.
    unfold dist_entry. cbn [fst snd]. rewrite Hn.
    now rewrite nadd_nan_r.
  - destruct (dist_entry_at _ _ _ Ej Hi) as (r & Hr & He).
    exists r. split; [exact Hr|]. rewrite He. f_equal.
    unfold dist_entry. cbn [fst snd]. rewrite Hn. reflexivity.
Qed.

(** ** [drmsd] *)

Lemma nmean_nil : nmean [] = NaN.
Proof.
  unfold nmean, nsum. simpl.
  destruct (Req_dec_T 0 0) as [_|H]; [|congruence].
  unfold inf_scaled. destruct (Rlt_dec 0 0); [lra | reflexivity].
Qed.

(** With fewer than two points there is no pair to compare, and [drmsd]
    returns NaN (the mean of no value), whatever the second tensor is. *)
Theorem drmsd_fewer_than_two_points (a b : matrix) :
  (length a <= 1)%nat -> drmsd a b = Ok NaN.
Proof.
  intros H. unfold drmsd. cbv zeta. rewrite dist_nrows, dist_ncols.
  destruct a as [|r [|r' t]]; [| |simpl in H; lia];
    cbn [length triu_indices triu_pairs seq flat_map map fst snd
         Nat.add Nat.sub app index2 combine mapM bind];
    unfold mse_loss; cbn [combine map]; now rewrite nmean_nil.
Qed.

Lemma mapM_raises {T U : Type} (f : T -> result U) (e : pyexn) (l : list T) :
  (forall x, In x l -> f x = Raise e \/ exists v, f x = Ok v) ->
  (exists x, In x l /\ f x = Raise e) ->
  mapM f l = Raise e.
Proof.
  induction l as [|x t IH]; intros Hall [y [Hy Hf]]; [destruct Hy|].
  cbn [mapM]. destruct (Hall x (or_introl eq_refl)) as [E|[v E]];
    rewrite E; [reflexivity|].
  cbn [bind]. destruct Hy as [->|Hy]; [congruence|].
  rewrite IH; [reflexivity | intros z Hz; apply Hall; now right |].
  now exists y.
Qed.

Lemma mapM_ext_in {T U : Type} (f g : T -> result U) (l : list T) :
  (forall x, In x l -> f x = g x) -> mapM f l = mapM g l.
Proof.
  induction l as [|x t IH]; intros H; [reflexivity|].
  cbn [mapM]. rewrite (H x (or_introl eq_refl)).
  rewrite IH by (intros z Hz; apply H; now right). reflexivity.
Qed.

Lemma last_pair_in_triu (n : nat) :
  (2 <= n)%nat -> In (0%nat, (n - 1)%nat) (triu_pairs n n 1).
Proof.
  intros H. unfold triu_pairs. apply in_flat_map.
  exists 0%nat. split; [apply in_seq; lia|].
  apply in_map, in_seq. lia.
Qed.

(** When the second tensor has fewer points than the first, which has at
    least two, the indices of the first are out of range in the distance
    matrix of the second, and [drmsd] raises [IndexError]. *)
Theorem drmsd_shorter_second (a b : matrix) :
  (2 <= length a)%nat ->
  (length b < length a)%nat ->
  drmsd a b = Raise IndexError.
Proof.
  intros Ha Hb. unfold drmsd. cbv zeta. rewrite dist_nrows, dist_ncols.
  rewrite (gather_dist a eq_refl). cbn [bind].
  unfold index2, triu_indices. cbn [fst snd]. rewrite combine_fst_snd.
  rewrite mapM_raises with (e := IndexError); [reflexivity | |].
  - intros [i j] _. cbn [fst snd].
    destruct (nth_error (pairwise_internal_dist b) i) as [r|]; [|now left].
    destruct (nth_error r j) as [v|]; [right; now exists v | now left].
  - exists (0%nat, (length a - 1)%nat).
    split; [now apply last_pair_in_triu|]. cbn [fst snd].
    destruct (nth_error (pairwise_internal_dist b) 0) as [r|] eqn:Er;
      [|reflexivity].
    assert (Hr : length r = length b).
    { pose proof (dist_row_length b) as F.
      rewrite Forall_forall in F. apply F, (nth_error_In _ _ Er). }
    replace (nth_error r (length a - 1)) with (@None num); [reflexivity|].
    symmetry. apply nth_error_None. lia.
Qed.

(** Points of the second tensor past the number of points of the first
    are never read: [drmsd] does not check that the shapes agree, and
    compares [a] with the leading points of a longer tensor. *)
Theorem drmsd_ignores_trailing_points (a b extra : matrix) :
  length a = length b ->
  drmsd a (b ++ extra) = drmsd a b.
Proof.
  intros H. unfold drmsd. cbv zeta. rewrite dist_nrows, dist_ncols.
  rewrite (gather_dist a eq_refl). cbn [bind].
  replace (index2 (pairwise_internal_dist (b ++ extra))
                  (fst (triu_indices (length a) (length a) 1))
                  (snd (triu_indices (length a) (length a) 1)))
    with (index2 (pairwise_internal_dist b)
                 (fst (triu_indices (length a) (length a) 1))
                 (snd (triu_indices (length a) (length a) 1)));
    [reflexivity|].
  unfold index2, triu_indices. cbn [fst snd]. rewrite combine_fst_snd.
  apply mapM_ext_in. intros [i j] Hij.
  apply triu_pairs_in_range in Hij as [Hi Hj]. cbn [fst snd].
  rewrite H in Hi, Hj.
  destruct (nth_error b i) as [ri|] eqn:Ei;
    [|apply nth_error_None in Ei; lia].
  destruct (nth_error b j) as [rj|] eqn:Ej;
    [|apply nth_error_None in Ej; lia].
  destruct (dist_entry_at b i j Ei Ej) as (r & -> & ->).
  assert (Ei' : nth_error (b ++ extra) i = Some ri)
    by (now rewrite nth_error_app1).
  assert (Ej' : nth_error (b ++ extra) j = Some rj)
    by (now rewrite nth_error_app1).
  destruct (dist_entry_at (b ++ extra) i j Ei' Ej') as (r' & -> & ->).
  reflexivity.
Qed.


(** ** Angle losses *)

Lemma signed_diff_once (t p : R) :
  exists (e : R) (k : Z),
    signed_diff (Fin t) (Fin p) = Fin e /\
    e = t - p + 2 * PI * IZR k /\
    (-1 <= k <= 1)%Z /\
    (- PI <= e <= PI <-> - (3 * PI) <= t - p <= 3 * PI).
Proof.
  unfold signed_diff, nlt. cbn [nsub nneg nadd ngt].
  pose proof PI_RGT_0 as Hpi.
  destruct (Rlt_dec PI (t + - p)) as [H1|H1].
  - exists (t + - p + - (2 * PI)), (-1)%Z.
    repeat split; try lia; try lra; intros [? ?]; lra.
  - destruct (Rlt_dec (t + - p) (- PI)) as [H2|H2].
    + exists (t + - p + 2 * PI), 1%Z.
      repeat split; try lia; try lra; intros [? ?]; lra.
    + exists (t + - p), 0%Z.
      repeat split; try lia; try lra; intros [? ?]; lra.
Qed.

(** [angle_diff] wraps at most once: an entry is [true - pred] moved by
    [-2 pi], [0] or [2 pi], and it lies in [[-pi, pi]] exactly when
    [true - pred] lies in [[-3 pi, 3 pi]]; a difference further out stays
    out of range. *)
Theorem angle_diff_wraps_once (true pred : tensor) (i : nat) (t p : R) :
  nth_error (data true) i = Some (Fin t) ->
  nth_error (data pred) i = Some (Fin p) ->
  exists (e : R) (k : Z),
    nth_error (data (angle_diff true pred)) i = Some (Fin e) /\
    e = t - p + 2 * PI * IZR k /\
    (-1 <= k <= 1)%Z /\
    (- PI <= e <= PI <-> - (3 * PI) <= t - p <= 3 * PI).
Proof.
  intros Ht Hp.
  destruct (signed_diff_once t p) as (e & k & E & H).
  exists e, k. split; [|exact H].
  rewrite angle_diff_data, nth_error_map, (nth_error_combine _ _ _ Ht Hp).
  cbn [option_map fst snd]. now rewrite E.
Qed.

Lemma nabs_signed_diff_sym (t p : num) :
  nabs (signed_diff t p) = nabs (signed_diff p t).
Proof.
  destruct t as [| | |t], p as [| | |p]; try reflexivity.
  unfold signed_diff, nlt. cbn [nsub nneg nadd ngt].
  pose proof PI_RGT_0 as Hpi.
  destruct (Rlt_dec PI (t + - p)), (Rlt_dec (t + - p) (- PI)),
    (Rlt_dec PI (p + - t)), (Rlt_dec (p + - t) (- PI));
    try (exfalso; lra); cbn [nabs nadd nsub nneg]; f_equal;
    rewrite <- Rabs_Ropp; f_equal; lra.
Qed.

(** [angle_mae] does not depend on the order of its two arguments. *)
Theorem angle_mae_symmetric (true pred : tensor) :
  angle_mae true pred = angle_mae pred true.
Proof.
  unfold angle_mae. rewrite !angle_diff_data, !map_map. f_equal.
  generalize (data true) (data pred).
  induction l as [|x l IH]; intros [|y l']; simpl; try reflexivity.
  now rewrite IH, nabs_signed_diff_sym.
Qed.

Lemma fin_list (P : R -> Prop) (l : list num) :
  Forall (fun x => exists r, x = Fin r /\ P r) l ->
  exists rl, l = map Fin rl /\ Forall P rl.
Proof.
  induction 1 as [|x t (r & -> & Hr) _ (rl & -> & Hrl)].
  - now exists [].
  - exists (r :: rl). split; [reflexivity | now constructor].
Qed.

Lemma rsum_bounds (lo hi : R) (l : list R) :
  Forall (fun v => lo <= v <= hi) l ->
  lo * INR (length l) <= rsum l <= hi * INR (length l).
Proof.
  unfold rsum. induction 1 as [|v t Hv _ IH].
  - simpl. lra.
  - cbn [length fold_right]. rewrite S_INR. lra.
Qed.

(** The mean of real entries that lie in [[lo, hi]] lies in [[lo, hi]]. *)
Lemma nmean_bounds (lo hi : R) (l : list num) :
  l <> [] ->
  Forall (fun x => exists r, x = Fin r /\ lo <= r <= hi) l ->
  exists m, nmean l = Fin m /\ lo <= m <= hi.
Proof.
  intros Hne H. apply fin_list in H as (rl & -> & Hrl).
  assert (Hrne : rl <> []) by (destruct rl; [now destruct Hne | discriminate]).
  rewrite (nmean_fin Hrne). eexists. split; [reflexivity|].
  pose proof (rsum_bounds Hrl) as [B1 B2].
  assert (Hn : 0 < INR (length rl))
    by (apply lt_0_INR; destruct rl; [congruence | simpl; lia]).
  split.
  - apply Rmult_le_reg_r with (INR (length rl)); [exact Hn|].
    replace (rsum rl / INR (length rl) * INR (length rl)) with (rsum rl)
      by (field; lra).
    exact B1.
  - apply Rmult_le_reg_r with (INR (length rl)); [exact Hn|].
    replace (rsum rl / INR (length rl) * INR (length rl)) with (rsum rl)
      by (field; lra).
    exact B2.
Qed.

(** For two tensors whose entries are angles in [[-pi, pi]] or NaN, with
    at least one position where both hold an angle, [angle_mae] is a real
    number between [0] and [pi]. *)
Theorem angle_mae_bounded (true pred : tensor) (i : nat) (t p : R) :
  Forall angle_or_nan (data true) ->
  Forall angle_or_nan (data pred) ->
  nth_error (data true) i = Some (Fin t) ->
  nth_error (data pred) i = Some (Fin p) ->
  exists m, angle_mae true pred = Fin m /\ 0 <= m <= PI.
Proof.
  intros Ht Hp Hti Hpi.
  unfold angle_mae. rewrite nanmean_filter, filter_not_nan_abs.
  rewrite angle_diff_data.
  set (D := map (fun c => signed_diff (fst c) (snd c))
                (combine (data true) (data pred))).
  assert (HD : Forall angle_or_nan D).
  { apply Forall_forall. intros x Hx.
    apply in_map_iff in Hx as [[a b] [<- Hc]]. cbn [fst snd].
    rewrite Forall_forall in Ht, Hp.
    apply signed_diff_angle_or_nan.
    - apply Ht, (in_combine_l _ _ _ _ Hc).
    - apply Hp, (in_combine_r _ _ _ _ Hc). }
  apply nmean_bounds.
  - destruct (signed_diff_once t p) as (e & k & E & _).
    assert (Hin : In (Fin e) D).
    { unfold D. rewrite <- E.
      apply (in_map (fun c => signed_diff (fst c) (snd c)) _ (Fin t, Fin p)).
      apply (nth_error_In _ i). now apply nth_error_combine. }
    intros Hnil.
    assert (Hf : In (nabs (Fin e))
                    (map nabs (filter (fun x => negb (isnan x)) D))).
    { apply in_map, filter_In. now split. }
    rewrite Hnil in Hf. destruct Hf.
  - apply Forall_forall. intros x Hx.
    apply in_map_iff in Hx as [y [<- Hy]].
    apply filter_In in Hy as [Hy Hn].
    rewrite Forall_forall in HD. specialize (HD y Hy).
    destruct y as [| | |r]; try contradiction; [discriminate Hn|].
    exists (Rabs r). split; [reflexivity|]. simpl in HD.
    split; [apply Rabs_pos | apply Rabs_le; lra].
Qed.

(** When every entry of [true] is NaN, nothing is left to compare and
    [angle_mse] returns NaN. *)
Theorem angle_mse_all_nan (true pred : tensor) :
  wf true -> wf pred ->
  shape true = shape pred ->
  Forall (fun x => isnan x = Datatypes.true) (data true) ->
  angle_mse true pred = Ok NaN.
Proof.
  intros Wt Wp Hs Hn.
  rewrite (angle_mse_eq _ _ Hs (wf_same_length Wt Wp Hs)). f_equal.
  unfold mse_where_not_nan.
  replace (filter _ (combine (data true) (data pred)))
    with (@nil (num * num)); [apply nmean_nil|].
  symmetry. generalize (data pred).
  induction Hn as [|x t Hx _ IH]; intros [|y l]; simpl; try reflexivity.
  rewrite Hx. simpl. apply IH.
Qed.

Lemma filter_after_map {X Y : Type} (f : Y -> bool) (g : X -> Y)
      (l : list X) :
  filter f (map g l) = map g (filter (fun x => f (g x)) l).
Proof.
  induction l as [|x t IH]; simpl; [reflexivity|].
  rewrite IH. now destruct (f (g x)).
Qed.

(** [angle_mse] of a tensor with itself is [0] when its entries are real
    numbers or NaN and at least one is a real number. *)
Theorem angle_mse_self (t : tensor) (r : R) :
  Forall (fun x => x = NaN \/ exists v, x = Fin v) (data t) ->
  In (Fin r) (data t) ->
  angle_mse t t = Ok (Fin 0).
Proof.
  intros Hall Hin. rewrite (angle_mse_eq t t eq_refl eq_refl). f_equal.
  unfold mse_where_not_nan. rewrite combine_self, filter_after_map, map_map.
  cbn [fst snd].
  destruct (@nmean_bounds 0 0
              (map (fun x => nmul (nsub x x) (nsub x x))
                   (filter (fun x => negb (isnan x)) (data t))))
    as (m & -> & Hm).
  - intros E.
    assert (Hf : In (nmul (nsub (Fin r) (Fin r)) (nsub (Fin r) (Fin r)))
                    (map (fun x => nmul (nsub x x) (nsub x x))
                         (filter (fun x => negb (isnan x)) (data t)))).
    { apply (in_map (fun x => nmul (nsub x x) (nsub x x)) _ (Fin r)).
      apply filter_In. now split. }
    rewrite E in Hf. destruct Hf.
  - apply Forall_forall. intros x Hx.
    apply in_map_iff in Hx as [y [<- Hy]].
    apply filter_In in Hy as [Hy Hn].
    rewrite Forall_forall in Hall.
    destruct (Hall y Hy) as [->|[v ->]]; [discriminate Hn|].
    exists ((v + - v) * (v + - v)). split; [reflexivity | lra].
  - f_equal. lra.
Qed.

(** ** [compute_batch_drmsd] *)

Lemma nadd_zero_l (x : num) : nadd (Fin 0) x = x.
Proof. destruct x; simpl; trivial. f_equal. ring. Qed.

Lemma select_map_filter {X : Type} (f : X -> bool) (x : list X) :
  select x (map f x) = filter f x.
Proof.
  induction x as [|v t IH]; simpl; [reflexivity|].
  rewrite IH. reflexivity.
Qed.

Section BatchFacts.

Variable NUM_COORDS_PER_RES : nat.

Local Abbreviation N := NUM_COORDS_PER_RES.

Local Abbreviation keep s :=
  (repeat_each N (map (fun t => negb (Z.eqb t PAD_TOKEN)) s)).

(** [mask_protein] on every input: [ValueError] on an empty sequence,
    [IndexError] when a mask does not have the length of the tensor it
    indexes, and a result otherwise. *)
Lemma mask_protein_cases (pc tc : matrix) (s : list Z) :
  (s = [] /\ mask_protein N pc tc s = Raise ValueError) \/
  (s <> [] /\
   (length tc <> (N * length s)%nat \/
    length pc <> length (select tc (keep s))) /\
   mask_protein N pc tc s = Raise IndexError) \/
  (s <> [] /\ length tc = (N * length s)%nat /\
   length pc = length (select tc (keep s)) /\
   mask_protein N pc tc s
   = Ok (filter (fun row => negb (forallb isnan row)) (select tc (keep s)),
         select pc (map (fun row => negb (forallb isnan row))
                        (select tc (keep s))))).
Proof.
  destruct s as [|t0 s0] eqn:Es; [left; now split|].
  rewrite <- Es. assert (Hne : s <> []) by (rewrite Es; discriminate).
  right. destruct (Nat.eq_dec (length tc) (N * length s)) as [Htc|Htc].
  - destruct (Nat.eq_dec (length pc) (length (select tc (keep s))))
      as [Hpc|Hpc].
    + right. repeat split; trivial.
      rewrite (mask_protein_unpadded_pred N pc tc Hne Htc Hpc).
      cbv zeta. now rewrite !map_map, select_map_filter.
    + left. repeat split; trivial; [now right|].
      unfold mask_protein.
      rewrite tile_repeat_each by (rewrite Es; discriminate).
      cbn [bind].
      rewrite bool_index_ok by (now rewrite length_repeat_each, length_map).
      cbn [bind].
      rewrite bool_index_ok by (now rewrite !length_map).
      cbn [bind].
      rewrite bool_index_raises; [reflexivity|].
      now rewrite !length_map.
  - left. repeat split; trivial; [now left|].
    unfold mask_protein.
    rewrite tile_repeat_each by (rewrite Es; discriminate).
    cbn [bind].
    rewrite bool_index_raises; [reflexivity|].
    now rewrite length_repeat_each, length_map.
Qed.

(** The masking step raises [ValueError] exactly on an empty sequence and
    returns exactly when the true tensor has [NUM_COORDS_PER_RES] rows per
    residue and the predicted tensor has one row per atom that is left
    after the padding is removed; in every other case it raises
    [IndexError]. *)
Theorem mask_protein_outcome (pc tc : matrix) (s : list Z) :
  (mask_protein N pc tc s = Raise ValueError <-> s = []) /\
  ((exists r, mask_protein N pc tc s = Ok r) <->
   s <> [] /\ length tc = (N * length s)%nat /\
   length pc = length (select tc (keep s))) /\
  (mask_protein N pc tc s = Raise IndexError <->
   s <> [] /\ (length tc <> (N * length s)%nat \/
               length pc <> length (select tc (keep s)))).
Proof.
  destruct (mask_protein_cases pc tc s)
    as [[Hs E]|[(Hs & Hl & E)|(Hs & Htc & Hpc & E)]]; rewrite E.
  - split; [|split]; split; intros H; trivial.
    + destruct H as [r H]. discriminate H.
    + destruct H as [H _]. congruence.
    + discriminate H.
    + destruct H as [H _]. congruence.
  - split; [|split]; split; intros H; trivial.
    + discriminate H.
    + congruence.
    + destruct H as [r H]. discriminate H.
    + destruct H as (_ & H1 & H2). destruct Hl; congruence.
    + now split.
  - split; [|split]; split; intros H; trivial.
    + discriminate H.
    + congruence.
    + now split.
    + eexists. reflexivity.
    + discriminate H.
    + destruct H as (_ & [H|H]); congruence.
Qed.

(** What the masking step hands to [drmsd]: two tensors with the same
    number of rows, the true rows taken from the true tensor in order,
    none of them made of NaN only. *)
Theorem mask_protein_invariants (pc tc tc' pc' : matrix) (s : list Z) :
  mask_protein N pc tc s = Ok (tc', pc') ->
  length tc' = length pc' /\
  Forall (fun row => forallb isnan row = false) tc' /\
  (forall row, In row tc' -> In row tc) /\
  (length tc' <= N * length s)%nat.
Proof.
  intros H.
  destruct (mask_protein_cases pc tc s)
    as [[Hs E]|[(Hs & Hl & E)|(Hs & Htc & Hpc & E)]];
    rewrite E in H; try discriminate H.
  injection H as <- <-.
  set (k := select tc (keep s)) in *.
  assert (Hk : length tc = length (keep s))
    by (now rewrite length_repeat_each, length_map).
  repeat split.
  - rewrite <- select_map_filter.
    rewrite !length_select by (now rewrite ?length_map).
    reflexivity.
  - apply Forall_forall. intros row Hrow.
    apply filter_In in Hrow as [_ Hrow]. now apply negb_true_iff.
  - intros row Hrow. apply filter_In in Hrow as [Hrow _].
    unfold k in Hrow. clear - Hrow.
    revert Hrow. generalize (keep s).
    induction tc as [|v t IH]; intros [|b m] Hrow; simpl in Hrow;
      try contradiction.
    destruct b; [destruct Hrow as [->|Hrow]|];
      simpl; eauto.
  - pose proof (filter_length_le (fun row => negb (forallb isnan row)) k).
    assert (length k <= length tc)%nat.
    { unfold k. rewrite (length_select _ _ Hk).
      pose proof (filter_length_le (fun b : bool => b) (keep s)). lia. }
    lia.
Qed.

(** The loop zips its three arguments: when one of them is empty no
    protein is scored and the result is the initial [0.0]. *)
Theorem compute_batch_drmsd_empty (true_coordinates pred_coordinates
                                     : list matrix) (seq : list (list Z)) :
  true_coordinates = [] \/ pred_coordinates = [] \/ seq = [] ->
  compute_batch_drmsd N true_coordinates pred_coordinates seq = Ok (Fin 0).
Proof.
  unfold compute_batch_drmsd. intros [ -> | [ -> | -> ] ].
  - now destruct pred_coordinates.
  - reflexivity.
  - destruct pred_coordinates; [reflexivity|].
    now destruct true_coordinates.
Qed.

End BatchFacts.

End LossesFacts.

(** * collate.py and losses.py together *)

Module PipelineFacts.

Import Losses LossesMore LossesTheory.

Local Abbreviation not_pad := (fun t : Z => negb (Z.eqb t PAD_TOKEN)).

Lemma map_slice_upto {X Y : Type} (f : X -> Y) (stop : option Z)
      (l : list X) :
  map f (slice_upto stop l) = slice_upto stop (map f l).
Proof.
  destruct stop as [k|]; simpl; [|reflexivity].
  rewrite length_map. destruct (0 <=? k)%Z; symmetry; apply firstn_map.
Qed.

Lemma map_not_pad (seq : list Z) :
  ~ In PAD_TOKEN seq -> map not_pad seq = repeat true (length seq).
Proof.
  induction seq as [|t seq IH]; intros H; simpl; [reflexivity|].
  rewrite IH by (intros Hin; apply H; now right). f_equal.
  apply negb_true_iff, Z.eqb_neq. intros ->. apply H. now left.
Qed.

Lemma map_not_pad_padding (k : nat) :
  map not_pad (repeat PAD_TOKEN k) = repeat false k.
Proof. induction k as [|k IH]; simpl; [reflexivity | now rewrite IH]. Qed.







(** The masking of lines 31 to 35 starts by removing the batch padding. *)
Lemma mask_protein_removes_padding_first (n : nat) (pc tc : matrix)
      (s : list Z) :
  mask_protein n pc tc s
  = tc0 <- remove_batch_padding n tc s ;;
    tc' <- bool_index tc0 (map negb (map (forallb isnan) tc0)) ;;
    pc' <- bool_index pc (map negb (map (forallb isnan) tc0)) ;;
    Ok (tc', pc').
Proof.
  unfold mask_protein, remove_batch_padding.
  destruct (_tile (map not_pad s) n) as [bp|e]; reflexivity.
Qed.


Lemma well_shaped_arr1 {X : Type} (seqs : list (list X)) :
  Collate.well_shaped true (map (@Collate.Arr1 X) seqs) = true.
Proof.
  unfold Collate.well_shaped. apply andb_true_intro. split.
  - apply forallb_forall. intros a Ha.
    apply in_map_iff in Ha as [x [<- _]]. reflexivity.
  - destruct seqs as [|x t]; [reflexivity|]. cbn [map].
    apply forallb_forall. intros a Ha.
    apply in_map_iff in Ha as [y [<- _]]. reflexivity.
Qed.



(** The mask [s != 20] of the sequence rows that [collate_fn] returns,
    with [VOCAB.pad_id = 20] and sequences that do not hold the token 20:
    it is true on the residues of the instance and false on the padding,
    cut by the same slice. *)
Theorem collated_padding_mask (n : nat) (zero : Z) (seqs : list (list Z))
        (max_seq_len : option Z) :
  seqs <> [] ->
  Forall (fun seq => ~ In PAD_TOKEN seq) seqs ->
  exists t,
    Collate.collate_fn zero PAD_TOKEN n (map (@Collate.Arr1 Z) seqs)
                       false true max_seq_len
    = Ok t /\
    forall k seq,
      nth_error seqs k = Some seq ->
      exists row,
        nth_error (Collate.t_rows t) k = Some row /\
        map not_pad (CollateMore.xs_of row)
        = slice_upto max_seq_len
            (repeat true (length seq)
             ++ repeat false
                  (Collate.max_len (map (@Collate.Arr1 Z) seqs)
                   - length seq)).
Proof.
  intros Hne Hpad. eexists. split.
  - apply CollateTheory.collate_fn_eq with (stop := max_seq_len);
      [destruct seqs; [congruence | discriminate]
      | apply well_shaped_arr1 | reflexivity].
  - intros k seq Hk. eexists. split.
    + cbn [Collate.t_rows].
      now rewrite nth_error_map, nth_error_map, Hk.
    + cbn [Collate.pad_to Collate.slice_arr CollateMore.xs_of].
      rewrite map_slice_upto, map_app. f_equal.
      rewrite map_not_pad_padding. f_equal.
      rewrite Forall_forall in Hpad.
      apply map_not_pad, Hpad, (nth_error_In _ _ Hk).
Qed.

End PipelineFacts.

(** * Concrete instances of the further properties *)

Module MoreExamples.

Import Losses LossesData LossesMore LossesTheory LossesFacts PipelineFacts.

Lemma collate_fn_shape_witness :
  exists t,
    Collate.collate_fn 0%Z 20%Z 14 CollateData.two_seqs false true
                       (Some (-1)%Z)
    = Ok t /\
    length (Collate.t_rows t) = length CollateData.two_seqs /\
    Forall (fun r => Collate.len r
                     = CollateMore.slice_len
                         (Some (-1)%Z)
                         (Collate.max_len CollateData.two_seqs))
           (Collate.t_rows t).
Proof.
  apply (@CollateFacts.collate_fn_shape Z 0%Z 20%Z 14 CollateData.two_seqs
           false true (Some (-1)%Z) (Some (-1)%Z)).
  - discriminate.
  - reflexivity.
  - reflexivity.
Defined.

Lemma pairwise_internal_dist_nan_witness :
  (exists r, nth_error (pairwise_internal_dist nan_point) 0 = Some r /\
             nth_error r 1 = Some NaN) /\
  (exists r, nth_error (pairwise_internal_dist nan_point) 1 = Some r /\
             nth_error r 0 = Some NaN).
Proof.
  apply (@pairwise_internal_dist_nan nan_point 0 1 [NaN; Fin 0%R; Fin 0%R]).
  - reflexivity.
  - left. reflexivity.
  - simpl. lia.
Defined.

Lemma drmsd_fewer_than_two_points_witness :
  drmsd one_point nan_point = Ok NaN.
Proof.
  apply (@drmsd_fewer_than_two_points one_point nan_point). simpl. lia.
Defined.

Lemma drmsd_shorter_second_witness :
  drmsd nan_point one_point = Raise IndexError.
Proof.
  apply (@drmsd_shorter_second nan_point one_point); simpl; lia.
Defined.

Lemma drmsd_ignores_trailing_points_witness :
  drmsd (lift two_points) (lift apart ++ one_point)
  = drmsd (lift two_points) (lift apart).
Proof.
  apply (@drmsd_ignores_trailing_points (lift two_points) (lift apart)
           one_point).
  reflexivity.
Defined.

Lemma angle_diff_wraps_once_witness :
  exists (e : R) (k : Z),
    nth_error (data (angle_diff half_turns back_turns)) 0 = Some (Fin e) /\
    e = (PI - - PI + 2 * PI * IZR k)%R /\
    (-1 <= k <= 1)%Z /\
    ((- PI <= e <= PI)%R <-> (- (3 * PI) <= PI - - PI <= 3 * PI)%R).
Proof.
  apply (@angle_diff_wraps_once half_turns back_turns 0 PI (- PI)%R).
  - reflexivity.
  - reflexivity.
Defined.

Lemma angle_mae_bounded_witness :
  exists m, angle_mae half_turns back_turns = Fin m /\ (0 <= m <= PI)%R.
Proof.
  pose proof PI_RGT_0 as Hpi.
  apply (@angle_mae_bounded half_turns back_turns 0 PI (- PI)%R).
  - repeat constructor; simpl; lra.
  - repeat constructor; simpl; lra.
  - reflexivity.
  - reflexivity.
Defined.

Lemma angle_mse_all_nan_witness : angle_mse all_missing some_pred = Ok NaN.
Proof.
  apply (@angle_mse_all_nan all_missing some_pred).
  - reflexivity.
  - reflexivity.
  - reflexivity.
  - repeat constructor.
Defined.

Lemma angle_mse_self_witness :
  angle_mse true_angles true_angles = Ok (Fin 0%R).
Proof.
  apply (@angle_mse_self true_angles 1%R).
  - repeat (apply Forall_cons;
            [first [left; reflexivity | right; eexists; reflexivity]|]).
    apply Forall_nil.
  - left. reflexivity.
Defined.

Lemma mask_protein_invariants_witness :
  length (lift two_points) = length (lift short_pred) /\
  Forall (fun row => forallb isnan row = false) (lift two_points) /\
  (forall row, In row (lift two_points) -> In row (lift two_points)) /\
  (length (lift two_points) <= 1 * length short_seq)%nat.
Proof.
  apply (@mask_protein_invariants 1 (lift short_pred) (lift two_points)
           (lift two_points) (lift short_pred) short_seq).
  reflexivity.
Defined.

Lemma compute_batch_drmsd_empty_witness :
  compute_batch_drmsd 14 [] [one_point] [short_seq] = Ok (Fin 0%R).
Proof.
  apply (@compute_batch_drmsd_empty 14 [] [one_point] [short_seq]).
  left. reflexivity.
Defined.

Lemma collated_padding_mask_witness :
  exists t,
    Collate.collate_fn 0%Z PAD_TOKEN 14 (map (@Collate.Arr1 Z) small_seqs)
                       false true (Some 500%Z)
    = Ok t /\
    forall k seq,
      nth_error small_seqs k = Some seq ->
      exists row,
        nth_error (Collate.t_rows t) k = Some row /\
        map (fun t : Z => negb (Z.eqb t PAD_TOKEN)) (CollateMore.xs_of row)
        = slice_upto (Some 500%Z)
            (repeat true (length seq)
             ++ repeat false
                  (Collate.max_len (map (@Collate.Arr1 Z) small_seqs)
                   - length seq)).
Proof.
  apply (@collated_padding_mask 14 0%Z small_seqs (Some 500%Z)).
  - discriminate.
  - repeat constructor; simpl; unfold PAD_TOKEN; intuition discriminate.
Defined.

End MoreExamples.

(** * collate.py with the element types *)

Module CollateCastTheory.

Import Collate CollateCast CollateTheory.

Lemma mapM_map {T U V : Type} (g : T -> U) (f : U -> result V) (l : list T) :
  mapM f (map g l) = mapM (fun x => f (g x)) l.
Proof.
  induction l as [|x t IH]; simpl; [reflexivity | now rewrite IH].
Qed.

Lemma mapM_ext {T U : Type} (f g : T -> result U) (l : list T) :
  (forall x, f x = g x) -> mapM f l = mapM g l.
Proof.
  intros H. induction l as [|x t IH]; simpl; [reflexivity|].
  now rewrite H, IH.
Qed.

Lemma slice_upto_map {X Y : Type} (f : X -> Y) (stop : option Z)
      (l : list X) :
  slice_upto stop (map f l) = map f (slice_upto stop l).
Proof.
  destruct stop as [k|]; simpl; [|reflexivity].
  rewrite length_map. destruct (0 <=? k)%Z; apply firstn_map.
Qed.

Lemma forallb_after_map {X Y : Type} (f : X -> Y) (p : Y -> bool)
      (q : X -> bool) (l : list X) :
  (forall x, p (f x) = q x) -> forallb p (map f l) = forallb q l.
Proof.
  intros H. induction l as [|x t IH]; simpl; [reflexivity|].
  now rewrite H, IH.
Qed.

Section CollateCastTheory.

Variable A : Type.
Variable zero : A.
Variable pad_id : A.
Variable NUM_COORDS_PER_RES : nat.
Variable to_float64 : A -> A.
Variable to_long : A -> A.
Variable to_float : A -> A.

Local Abbreviation ndarray := (ndarray A).
Local Abbreviation pad_to := (pad_to zero pad_id).
Local Abbreviation collate_fn :=
  (collate_fn zero pad_id NUM_COORDS_PER_RES to_float64 to_long to_float).
Local Abbreviation trim_stop := (trim_stop NUM_COORDS_PER_RES).
Local Abbreviation cast := (cast to_long to_float).
Local Abbreviation converted := (converted to_float64 to_long to_float).
Local Abbreviation exact_on :=
  (exact_on zero pad_id to_float64 to_long to_float).

(** ** A conversion keeps the shape *)

Lemma len_astype (f : A -> A) (a : ndarray) : len (astype f a) = len a.
Proof. destruct a; simpl; apply length_map. Qed.

Lemma last_dim_astype (f : A -> A) (a : ndarray) :
  last_dim (astype f a) = last_dim a.
Proof. destruct a; simpl; [apply length_map | reflexivity]. Qed.

Lemma pad_block_astype (f : A -> A) (sequences : bool) (n : nat)
      (a : ndarray) :
  pad_block zero pad_id sequences n (astype f a)
  = pad_block zero pad_id sequences n a.
Proof.
  unfold pad_block. now rewrite len_astype, last_dim_astype.
Qed.

Lemma rank_ok_astype (f : A -> A) (sequences : bool) (a : ndarray) :
  rank_ok sequences (astype f a) = rank_ok sequences a.
Proof. now destruct a. Qed.

Lemma inner_shape_astype (f : A -> A) (a b : ndarray) :
  inner_shape_eqb (astype f a) (astype f b) = inner_shape_eqb a b.
Proof. now destruct a, b. Qed.

Lemma well_shaped_astype (f : A -> A) (sequences : bool)
      (insts : list ndarray) :
  well_shaped sequences (map (astype f) insts) = well_shaped sequences insts.
Proof.
  unfold well_shaped. f_equal.
  - apply forallb_after_map. intros a. apply rank_ok_astype.
  - destruct insts as [|a t]; [reflexivity|]. cbn [map].
    apply forallb_after_map. intros b. apply inner_shape_astype.
Qed.

Lemma max_len_astype (f : A -> A) (insts : list ndarray) :
  max_len (map (astype f) insts) = max_len insts.
Proof.
  unfold max_len. rewrite map_map. f_equal.
  apply map_ext. intros a. apply len_astype.
Qed.

Lemma astype_astype (f g : A -> A) (a : ndarray) :
  astype g (astype f a) = astype (fun x => g (f x)) a.
Proof.
  destruct a; simpl; f_equal; rewrite map_map; [reflexivity|].
  apply map_ext. intros row. apply map_map.
Qed.

(** ** [collate_fn] with and without the conversions *)

(** The batch of [CollateCast.collate_fn] is the batch that
    [Collate.collate_fn] makes of the float64 instances, converted to the
    element type of the tensor. *)
Lemma collate_fn_cast (insts : list ndarray) (coords sequences : bool)
      (max_seq_len : option Z) :
  collate_fn insts coords sequences max_seq_len
  = t <- Collate.collate_fn zero pad_id NUM_COORDS_PER_RES
                            (map (astype to_float64) insts)
                            coords sequences max_seq_len ;;
    Ok (Tensor (t_dtype t) (map (astype (cast sequences)) (t_rows t))).
Proof.
  unfold CollateCast.collate_fn, Collate.collate_fn.
  rewrite map_map.
  rewrite (map_ext (fun x => len (astype to_float64 x)) (@len A))
    by (intros a; apply len_astype).
  destruct (py_max (map (@len A) insts)) as [n|e]; [|reflexivity].
  cbn [bind]. rewrite mapM_map.
  rewrite (mapM_ext
             (fun x => Collate.concatenate
                         (astype to_float64 x)
                         (pad_block zero pad_id sequences n
                                    (astype to_float64 x)))
             (fun inst => concatenate to_float64 inst
                            (pad_block zero pad_id sequences n inst)))
    by (intros a; unfold concatenate; now rewrite pad_block_astype).
  destruct (mapM _ insts) as [batch|e]; [|reflexivity].
  cbn [bind]. destruct (np_array batch) as [batch'|e]; [|reflexivity].
  cbn [bind].
  destruct coords.
  - destruct (mul_coords NUM_COORDS_PER_RES max_seq_len) as [stop|e];
      [|reflexivity].
    cbn [bind t_dtype t_rows]. now destruct sequences.
  - cbn [bind t_dtype t_rows]. now destruct sequences.
Qed.

(** What [collate_fn] computes on a well-shaped batch. *)
Lemma collate_fn_cast_eq (insts : list ndarray) (coords sequences : bool)
      (max_seq_len stop : option Z) :
  insts <> [] ->
  well_shaped sequences insts = true ->
  trim_stop coords max_seq_len = Ok stop ->
  collate_fn insts coords sequences max_seq_len
  = Ok (Tensor (if sequences then Long else Float)
               (map (fun inst =>
                       astype (cast sequences)
                              (slice_arr stop
                                 (pad_to (max_len insts)
                                         (astype to_float64 inst))))
                    insts)).
Proof.
  intros Hne Hws Hstop. rewrite collate_fn_cast.
  rewrite (@collate_fn_eq A zero pad_id NUM_COORDS_PER_RES
             (map (astype to_float64) insts) coords sequences max_seq_len
             stop).
  - cbn [bind t_dtype t_rows]. rewrite max_len_astype, !map_map.
    reflexivity.
  - destruct insts; [congruence | discriminate].
  - now rewrite well_shaped_astype.
  - exact Hstop.
Qed.

Lemma len_converted_row (sequences : bool) (stop : option Z) (n : nat)
      (a : ndarray) :
  len (astype (cast sequences)
              (slice_arr stop (pad_to n (astype to_float64 a))))
  = len (slice_arr stop (pad_to n a)).
Proof.
  rewrite len_astype. apply len_slice_arr.
  destruct a; simpl; rewrite !length_app, !length_map; reflexivity.
Qed.

(** The conversions leave a padded instance as it is when they leave its
    entries and the pad value as they are. *)
Lemma pad_to_exact (sequences : bool) (n : nat) (a : ndarray) :
  rank_ok sequences a = true ->
  (forall x, In x (entries a) -> converted sequences x = x) ->
  cast sequences (if sequences then pad_id else zero)
  = (if sequences then pad_id else zero) ->
  astype (cast sequences) (pad_to n (astype to_float64 a)) = pad_to n a.
Proof.
  intros Hr Hx Hp.
  destruct a as [xs|w rows]; destruct sequences; try discriminate Hr;
    cbn [astype Collate.pad_to entries] in *; f_equal;
    rewrite map_app, !length_map, map_map; f_equal.
  - rewrite <- (map_id xs) at 2. apply map_ext_in. exact Hx.
  - now rewrite map_repeat, Hp.
  - rewrite <- (map_id rows) at 2. apply map_ext_in. intros row Hrow.
    rewrite map_map. rewrite <- (map_id row) at 2.
    apply map_ext_in. intros x Hin. apply Hx, in_concat. exists row. auto.
  - now rewrite !map_repeat, Hp.
Qed.

(** The conversions change no shape and no exception: with and without
    them [collate_fn] raises the same exception, or returns batches of
    one element type whose rows have the same lengths. *)
Lemma collate_fn_cast_outcome (insts : list ndarray) (coords sequences : bool)
      (max_seq_len : option Z) :
  match Collate.collate_fn zero pad_id NUM_COORDS_PER_RES insts coords
                           sequences max_seq_len,
        collate_fn insts coords sequences max_seq_len with
  | Ok t, Ok t' =>
      t_dtype t' = t_dtype t /\
      map (@len A) (t_rows t') = map (@len A) (t_rows t)
  | Raise e, Raise e' => e' = e
  | _, _ => False
  end.
Proof.
  rewrite collate_fn_cast.
  assert (Hnil : map (astype to_float64) insts = [] <-> insts = [])
    by (destruct insts; split; intros H; try reflexivity; discriminate H).
  destruct (CollateFacts.collate_fn_cases
              zero pad_id NUM_COORDS_PER_RES insts coords sequences
              max_seq_len)
    as [[H E]|[(Hne & Hws & Hc & Hm & E)|(Hne & Hws & stop & Hs & E)]];
    destruct (CollateFacts.collate_fn_cases
                zero pad_id NUM_COORDS_PER_RES
                (map (astype to_float64) insts) coords sequences
                max_seq_len)
      as [[H' E']|[(Hne' & Hws' & Hc' & Hm' & E')
                  |(Hne' & Hws' & stop' & Hs' & E')]];
    rewrite ?well_shaped_astype, ?Hnil in *;
    rewrite E, E'; cbn [bind t_dtype t_rows]; trivial;
    try (destruct H as [H|H]; congruence);
    try (destruct H' as [H'|H']; congruence);
    try (subst coords max_seq_len; discriminate).
  rewrite Hs in Hs'. injection Hs' as <-. split; [reflexivity|].
  rewrite max_len_astype, !map_map. apply map_ext. intros a.
  apply len_converted_row.
Qed.

(** C1 (amended).  On a non-empty, well-shaped list of instances
    [collate_fn] returns a rectangular batch, a LongTensor when
    [sequences] and a FloatTensor otherwise, whose row [i] is instance [i]
    with its entries converted to float64, followed by pad values
    ([pad_id] entries after a sequence, rows of zeros otherwise) up to the
    longest instance, cut to the trimming slice, every entry then
    converted to the element type of the tensor.  When the slice keeps
    every column the rows have the length of the longest instance, and
    row [i] is the padded instance itself where the two conversions leave
    its entries and the pad value as they are. *)
Theorem collate_fn_pads_converts_trims (insts : list ndarray)
        (coords sequences : bool) (max_seq_len stop : option Z) :
  insts <> [] ->
  well_shaped sequences insts = true ->
  trim_stop coords max_seq_len = Ok stop ->
  exists t,
    collate_fn insts coords sequences max_seq_len = Ok t /\
    t_dtype t = (if sequences then Long else Float) /\
    t_rows t
    = map (fun inst =>
             astype (cast sequences)
                    (slice_arr stop
                       (pad_to (max_len insts) (astype to_float64 inst))))
          insts /\
    (exists w, Forall (fun r => len r = w) (t_rows t)) /\
    (keeps_all stop (max_len insts) ->
     t_rows t
     = map (fun inst =>
              astype (cast sequences)
                     (pad_to (max_len insts) (astype to_float64 inst)))
           insts /\
     Forall (fun r => len r = max_len insts) (t_rows t) /\
     (exact_on sequences insts ->
      t_rows t = map (pad_to (max_len insts)) insts)).
Proof.
  intros Hne Hws Hstop.
  eexists. split; [apply collate_fn_cast_eq; eassumption|].
  cbn [t_dtype t_rows]. split; [reflexivity|]. split; [reflexivity|].
  assert (Hlen : forall a, In a insts ->
                           len (pad_to (max_len insts) a) = max_len insts)
    by (intros a Ha; apply len_pad_to, len_le_max_len, Ha).
  assert (Hrank : forall a, In a insts -> rank_ok sequences a = true).
  { unfold well_shaped in Hws. apply andb_prop in Hws as [Hr _].
    rewrite forallb_forall in Hr. exact Hr. }
  split.
  - exists (len (slice_arr stop (Arr1 (repeat pad_id (max_len insts))))).
    apply Forall_forall. intros r Hr.
    apply in_map_iff in Hr as [a [<- Ha]].
    rewrite len_converted_row.
    apply len_slice_arr. rewrite (Hlen a Ha). simpl.
    now rewrite repeat_length.
  - intros Hall.
    assert (Hpad : forall a, In a insts ->
                             len (pad_to (max_len insts)
                                         (astype to_float64 a))
                             = max_len insts).
    { intros a Ha. apply len_pad_to. rewrite len_astype.
      apply len_le_max_len, Ha. }
    assert (E : map (fun inst =>
                       astype (cast sequences)
                              (slice_arr stop
                                 (pad_to (max_len insts)
                                         (astype to_float64 inst))))
                    insts
                = map (fun inst =>
                         astype (cast sequences)
                                (pad_to (max_len insts)
                                        (astype to_float64 inst)))
                      insts).
    { apply map_ext_in. intros a Ha. f_equal. apply slice_arr_all.
      now rewrite (Hpad a Ha). }
    rewrite E. split; [reflexivity|]. split.
    + apply Forall_forall. intros r Hr.
      apply in_map_iff in Hr as [a [<- Ha]].
      rewrite len_astype. now apply Hpad.
    + intros [Hx Hp]. apply map_ext_in. intros a Ha.
      apply pad_to_exact; [now apply Hrank | | exact Hp].
      intros x Hin. now apply (Hx a).
Qed.

(** When all instances have one length [n] and the slice keeps [n]
    columns, nothing is padded and nothing is cut: the batch holds the
    instances, every entry converted to float64 and then to the element
    type of the tensor. *)
Theorem collate_fn_same_length_converts (insts : list ndarray)
        (coords sequences : bool) (max_seq_len stop : option Z) (n : nat) :
  insts <> [] ->
  well_shaped sequences insts = true ->
  (forall a, In a insts -> len a = n) ->
  trim_stop coords max_seq_len = Ok stop ->
  keeps_all stop n ->
  collate_fn insts coords sequences max_seq_len
  = Ok (Tensor (if sequences then Long else Float)
               (map (astype (converted sequences)) insts)).
Proof.
  intros Hne Hws Hn Hstop Hall.
  rewrite (collate_fn_cast_eq _ _ _ Hne Hws Hstop).
  rewrite (CollateFacts.max_len_const Hne Hn).
  do 2 f_equal. apply map_ext_in. intros a Ha.
  rewrite CollateFacts.pad_to_full by (rewrite len_astype; now apply Hn).
  rewrite slice_arr_all by (rewrite len_astype, (Hn a Ha); exact Hall).
  rewrite astype_astype. reflexivity.
Qed.

End CollateCastTheory.

End CollateCastTheory.

(** * losses.py in the arithmetic of the tensors *)

Module ArithTheory.

Import Losses LossesTheory Arith.

(** [Losses] is the instance [exact]. *)
Lemma pairwise_internal_dist_exact (x : matrix) :
  pairwise_internal_dist exact x = Losses.pairwise_internal_dist x.
Proof. reflexivity. Qed.

Lemma drmsd_exact (a b : matrix) : drmsd exact a b = Losses.drmsd a b.
Proof. reflexivity. Qed.



Section ArithTheory.

Variable K : arith.

Local Abbreviation F := (F K).












End ArithTheory.

(** The rules [ieee] hold in the arithmetic of [Losses]. *)
Lemma exact_ieee : ieee exact exact_finite.
Proof.
  split; cbn [F fzero fcount fadd fsub fmul fdiv fsqrt exact].
  - apply sq_sub_sym.
  - intros [| | |r]; try discriminate. intros _.
    cbn [nsub nneg nadd]. f_equal. apply Rplus_opp_r.
  - cbn [nmul]. f_equal. apply Rmult_0_l.
  - cbn [nadd]. f_equal. apply Rplus_0_l.
  - intros n. cbn [ndiv].
    destruct (Req_dec_T (INR (S n)) 0) as [E|_].
    + exfalso. revert E. apply not_0_INR. discriminate.
    + f_equal. unfold Rdiv. apply Rmult_0_l.
  - cbn [nsqrt]. destruct (Rlt_dec 0 0) as [E|_]; [exfalso; lra|].
    f_equal. apply sqrt_0.
Qed.

(** In the exact arithmetic, and there only, the entry of the distance
    matrix for two points of real coordinates is their Euclidean distance
    with its square clamped from below at 1e-30. *)
Lemma dist_exact (p q : list R) :
  length p = length q ->
  dist exact (map Fin p) (map Fin q) = Fin (clamped_dist p q).
Proof.
  intros H.
  assert (Hn : forall r, norm exact (map Fin r) = Fin (sumsq r)).
  { intros r. unfold norm, sumsq. rewrite <- nsum_fin, !map_map.
    reflexivity. }
  unfold dist. rewrite !Hn.
  change (dot exact (map Fin p) (map Fin q))
    with (Losses.dot (map Fin p) (map Fin q)).
  rewrite dot_fin.
  cbn [F falpha fadd fmul fsqrt fclamp exact nmul nadd clamp_min].
  unfold clamped_dist. rewrite <- (gram_sq_dist _ _ H).
  apply nsqrt_fin.
  pose proof clamp_eps_pos.
  pose proof (Rmax_r (sumsq q + -2 * dotR p q + sumsq p) clamp_eps).
  lra.
Qed.

End ArithTheory.

(** * IEEE 754 single precision

    The rules [ieee] hold in [binary32]: each is read off the definition
    of the operation in [SpecFloat]. *)

Module Binary32Theory.

Import SpecFloat Arith Binary32.

Local Open Scope Z_scope.

(** ** Shifting a mantissa to the right *)










(** ** The sign of a rounded number is the sign given *)






(** ** The rules *)


End Binary32Theory.

(** * Values and sums of the losses *)

Module LossesRange.

Import Losses LossesTheory Range BatchScore.

Local Open Scope R_scope.

Lemma sqrt_eps : sqrt clamp_eps = 1e-15.
Proof.
  unfold clamp_eps. replace 1e-30 with (1e-15 * 1e-15) by lra.
  apply sqrt_square. lra.
Qed.

(** The square root of a clamped value is NaN, [+inf], or at least
    [1e-15]. *)
Lemma nsqrt_clamp_range (u : num) :
  nan_or_at_least 1e-15 (nsqrt (clamp_min u clamp_eps)).
Proof.
  pose proof clamp_eps_pos as Hpos.
  assert (H : forall r, clamp_eps <= r ->
                        nan_or_at_least 1e-15 (nsqrt (Fin r))).
  { intros r Hr. rewrite nsqrt_fin by lra. cbn [nan_or_at_least].
    rewrite <- sqrt_eps. now apply sqrt_le_1_alt. }
  destruct u as [| | |r]; cbn [clamp_min nsqrt nan_or_at_least]; trivial.
  - apply H. lra.
  - apply H. apply Rmax_r.
Qed.

Lemma nsqrt_range (u : num) : nan_or_at_least 0 (nsqrt u).
Proof.
  destruct u as [| | |r]; cbn [nsqrt nan_or_at_least]; trivial.
  destruct (Rlt_dec r 0); cbn [nan_or_at_least]; [trivial|].
  apply sqrt_pos.
Qed.

(** Every entry of the matrix of [pairwise_internal_dist], whatever the
    coordinates are (NaN and infinities included), is NaN, [+inf], or a
    number that is at least [1e-15]: the clamp leaves no zero, no negative
    number and no [-inf]. *)
Theorem pairwise_internal_dist_range (x : matrix) :
  Forall (Forall (nan_or_at_least 1e-15)) (pairwise_internal_dist x).
Proof.
  unfold pairwise_internal_dist. cbv zeta.
  apply Forall_forall. intros row Hrow.
  apply in_map_iff in Hrow as [i [<- _]].
  apply Forall_forall. intros v Hv.
  apply in_map_iff in Hv as [j [<- _]].
  apply nsqrt_clamp_range.
Qed.

(** On two tensors with the same number of points [drmsd] raises nothing,
    and what it returns is NaN, [+inf], or a number that is not
    negative. *)
Theorem drmsd_range (a b : matrix) :
  length a = length b ->
  exists v, drmsd a b = Ok v /\ nan_or_at_least 0 v.
Proof.
  intros H. rewrite (drmsd_eq _ _ H). eexists. split; [reflexivity|].
  apply nsqrt_range.
Qed.

Section BatchSum.

Variable NUM_COORDS_PER_RES : nat.

Local Abbreviation N := NUM_COORDS_PER_RES.

(** The loop adds the score of each protein to [drmsds], in order, and
    stops at the first exception. *)
Lemma batch_loop_scores (l : list (matrix * (matrix * list Z)))
      (acc : num * num) :
  (r <- batch_loop N acc l ;; Ok (fst r))
  = (scores <- mapM (protein_score N) l ;;
     Ok (fold_left nadd scores (fst acc))).
Proof.
  revert acc. induction l as [|[pc [tc s]] t IH]; intros acc;
    [reflexivity|].
  cbn [batch_loop mapM]. unfold batch_step, protein_score.
  destruct (mask_protein N pc tc s) as [[tc' pc']|e]; [|reflexivity].
  cbn [bind].
  destruct (drmsd tc' pc') as [d|e]; [|reflexivity]. cbn [bind].
  destruct (floordiv (length tc') N) as [k|e]; [|reflexivity].
  cbn [bind]. rewrite IH. cbn [fst].
  destruct (mapM _ t) as [scores|e]; reflexivity.
Qed.

(** [compute_batch_drmsd] returns the sum, over the proteins of the
    batch in order, of [drmsd / (len(tc) // NUM_COORDS_PER_RES)] of the
    masked tensors of each protein, starting from [0.]; it raises the
    first exception that the masking, [drmsd] or the division of a
    protein raises. *)
Theorem compute_batch_drmsd_sum
        (true_coordinates pred_coordinates : list matrix)
        (seq : list (list Z)) :
  compute_batch_drmsd N true_coordinates pred_coordinates seq
  = (scores <- mapM (fun p =>
                       let '(pc, (tc, s)) := p in
                       m <- mask_protein N pc tc s ;;
                       let '(tc, pc) := m in
                       d <- drmsd tc pc ;;
                       k <- floordiv (length tc) N ;;
                       Ok (ndiv d (Fin (INR k))))
                    (combine pred_coordinates
                             (combine true_coordinates seq)) ;;
     Ok (fold_left nadd scores (Fin 0))).
Proof.
  unfold compute_batch_drmsd.
  exact (batch_loop_scores _ (Fin 0, Fin 0)).
Qed.

End BatchSum.

End LossesRange.

(** * From the collated batch to the masking of the loss, with the
      element types *)

Module PipelineCast.

Import Losses LossesMore LossesTheory PipelineFacts.


End PipelineCast.

(** * Concrete batches with their element types *)

Module CastExamples.

Import Collate CollateCast Scalar.

Local Open Scope Z_scope.

(** [VOCAB.pad_id = 20], [NUM_COORDS_PER_RES = 14]. *)
Local Abbreviation collate_fn :=
  (collate_fn zero pad_id 14 to_float64 to_long to_float).

(** float64 holds every integer up to [2^53] and float32 every integer up
    to [2^24]; the next integer is rounded to the even neighbour. *)
Example to_float64_rounds :
  to_float64 (Int64 (2 ^ 53)) = f64 (2 ^ 53) /\
  to_float64 (Int64 (2 ^ 53 + 1)) = f64 (2 ^ 53) /\
  to_float (f64 (2 ^ 24)) = f32 (2 ^ 24) /\
  to_float (f64 (2 ^ 24 + 1)) = f32 (2 ^ 24).
Proof. repeat split; vm_compute; reflexivity. Qed.

Example to_long_of_float64 :
  to_long (f64 20) = Int64 20 /\
  to_long (f64 (2 ^ 63)) = Int64 INT64_MIN /\
  to_long (Float64 SpecFloat.S754_nan) = Int64 INT64_MIN.
Proof. repeat split; vm_compute; reflexivity. Qed.

Example collate_fn_two_seqs_long :
  collate_fn two_seqs false true None
  = Ok (Tensor Long [tokens [1; 2; 3]; tokens [4; 20; 20]]).
Proof. vm_compute. reflexivity. Qed.

Example collate_fn_two_atoms_float :
  CollateCast.collate_fn zero pad_id 1 to_float64 to_long to_float
                         two_atoms true false (Some 500)
  = Ok (Tensor Float
               [Arr2 3 [[f32 1; f32 2; f32 3]; [f32 4; f32 5; f32 6]];
                Arr2 3 [[f32 7; f32 8; f32 9]; [f32 0; f32 0; f32 0]]]).
Proof. vm_compute. reflexivity. Qed.

(** C1, as stated, fails.  With [max_seq_len = 2] the batch has two
    columns: the first row is [1, 2], it has lost the entry [3] of the
    first instance and has not the length 3 of the longest instance.
    And the entries do not come back unchanged: the tokens [2^53 + 1] and
    [2^63 - 1] come back as [2^53] and [-2^63], the float64 angle
    [16777217.] comes back as the float32 [16777216.]. *)
Lemma collate_fn_trims_and_converts :
  (collate_fn two_seqs false true (Some 2)
   = Ok (Tensor Long [tokens [1; 2]; tokens [4; 20]]) /\
   len (tokens [1; 2]) <> max_len two_seqs) /\
  (collate_fn big_tokens false true None
   = Ok (Tensor Long [tokens [2 ^ 53; - 2 ^ 63]]) /\
   [tokens [2 ^ 53; - 2 ^ 63]] <> big_tokens) /\
  (collate_fn odd_angle false false None
   = Ok (Tensor Float [Arr2 1 [[f32 16777216]]]) /\
   [Arr2 1 [[f32 16777216]]] <> odd_angle).
Proof.
  repeat split; try (vm_compute; reflexivity); vm_compute; discriminate.
Qed.

Lemma collate_fn_pads_converts_trims_witness :
  exists t,
    collate_fn two_seqs false true (Some 2) = Ok t /\
    t_dtype t = Long /\
    t_rows t
    = map (fun inst =>
             astype to_long
                    (slice_arr (Some 2)
                       (Collate.pad_to zero pad_id (max_len two_seqs)
                                       (astype to_float64 inst))))
          two_seqs /\
    (exists w, Forall (fun r => len r = w) (t_rows t)) /\
    (keeps_all (Some 2) (max_len two_seqs) ->
     t_rows t
     = map (fun inst =>
              astype to_long
                     (Collate.pad_to zero pad_id (max_len two_seqs)
                                     (astype to_float64 inst)))
           two_seqs /\
     Forall (fun r => len r = max_len two_seqs) (t_rows t) /\
     (exact_on zero pad_id to_float64 to_long to_float true two_seqs ->
      t_rows t
      = map (Collate.pad_to zero pad_id (max_len two_seqs)) two_seqs)).
Proof.
  apply (@CollateCastTheory.collate_fn_pads_converts_trims
           scalar zero pad_id 14 to_float64 to_long to_float
           two_seqs false true (Some 2) (Some 2)).
  - discriminate.
  - reflexivity.
  - reflexivity.
Defined.

Lemma collate_fn_same_length_converts_witness :
  collate_fn same_length false true None
  = Ok (Tensor Long
               (map (astype (converted to_float64 to_long to_float true))
                    same_length)) /\
  map (astype (converted to_float64 to_long to_float true)) same_length
  = same_length.
Proof.
  split.
  - apply (@CollateCastTheory.collate_fn_same_length_converts
             scalar zero pad_id 14 to_float64 to_long to_float
             same_length false true None None 3).
    + discriminate.
    + reflexivity.
    + intros a [<-|[<-|[]]]; reflexivity.
    + reflexivity.
    + exact I.
  - vm_compute. reflexivity.
Defined.

End CastExamples.

(** * Concrete tensors in single precision *)

Module Binary32Examples.

Import SpecFloat Losses Arith Binary32.

Local Open Scope Z_scope.

(** [eps] is the float32 nearest to [1e-30]: it is within half a unit in
    the last place, [2^-124], of it. *)
Example eps_nearest :
  SFclassify prec eps = FloatClass.PNormal /\
  2 * Z.abs (10633824 * 10 ^ 30 - 2 ^ 123) <= 10 ^ 30.
Proof. split; [reflexivity | vm_compute; discriminate]. Qed.

(** The clamp value of the distance matrix, [sqrt(1e-30)], is just above
    [1e-15]. *)
Example sqrt_eps_value :
  SFsqrt prec emax eps = S754_finite false 9444733 (-73) /\
  2 ^ 73 <= 9444733 * 10 ^ 15.
Proof. split; [vm_compute; reflexivity | vm_compute; discriminate]. Qed.

(** A finite float32 coordinate, [2^64], whose square is above the
    largest float32: the squared norm is [+inf], the distance matrix
    holds NaN and [+inf], and [drmsd] of the tensor and itself is NaN. *)
Example drmsd_self_overflow :
  Forall (Forall (fun v => finite v = true)) huge_pair /\
  pairwise_internal_dist binary32 huge_pair
  = [[S754_nan; S754_infinity false];
     [S754_infinity false; SFsqrt prec emax eps]] /\
  drmsd binary32 huge_pair huge_pair = Ok S754_nan.
Proof.
  split; [repeat constructor|]. split; vm_compute; reflexivity.
Qed.

(** In single precision [drmsd] is not invariant under translation.  The
    points of [moved_pair] are the points of [unit_pair] moved by 10000
    along the first axis.  [10001^2] rounds to [100020000], so
    [|q|^2 - 2 p.q + |p|^2] is [0.] for every pair of points of
    [moved_pair]: every entry of its distance matrix is the clamp value
    [sqrt(1e-30)], and [drmsd unit_pair moved_pair] is [1.] although the
    two tensors have the same distances between their points. *)
Theorem drmsd_cancels_in_binary32 :
  moved_pair
  = map (fun p => match p with
                  | x :: r => SFadd prec emax x (of_Z 10000) :: r
                  | [] => []
                  end)
        unit_pair /\
  SFmul prec emax (of_Z 10001) (of_Z 10001) = of_Z 100020000 /\
  pairwise_internal_dist binary32 unit_pair
  = [[SFsqrt prec emax eps; of_Z 1]; [of_Z 1; SFsqrt prec emax eps]] /\
  pairwise_internal_dist binary32 moved_pair
  = [[SFsqrt prec emax eps; SFsqrt prec emax eps];
     [SFsqrt prec emax eps; SFsqrt prec emax eps]] /\
  drmsd binary32 unit_pair unit_pair = Ok (S754_zero false) /\
  drmsd binary32 moved_pair moved_pair = Ok (S754_zero false) /\
  drmsd binary32 unit_pair moved_pair = Ok (of_Z 1).
Proof. repeat split; vm_compute; reflexivity. Qed.



End Binary32Examples.

(** * Concrete instances: the value of [drmsd], and a collated batch
      handed to the masking *)

Module RangeExamples.

Import Losses LossesData LossesMore LossesTheory Range.

Lemma drmsd_range_witness :
  exists v, drmsd (lift two_points) (lift apart) = Ok v /\
            nan_or_at_least 0 v.
Proof.
  apply (@LossesRange.drmsd_range (lift two_points) (lift apart)).
  reflexivity.
Defined.


End RangeExamples.
